(** * HIP events over the ROCclr runtime: [hip::Event] of rocclr/hip_event.cpp

    The file embeds the methods of [hip::Event] ([ready], [query],
    [synchronize], [elapsedTime], [streamWait], [addMarker]) and
    [ihipEventCreateWithFlags].

    The methods talk to the ROCclr engine ([amd::Event], [amd::Command],
    [amd::HostQueue], [amd::Marker]), which is another code base.  A method is
    therefore embedded as a finite tree of engine calls ([Prog]): const
    accessors are observations of the engine state, every other call is an
    action that may change it, and the [amd::ScopedLock]s on the events'
    monitors are explicit acquire and release nodes.  What the device does
    between two calls of the host is part of what the actions do to the
    engine state; an observation does not change it.

    The [float] that [elapsedTime] computes is kept as the rational it
    denotes, and the conversion and the division of lines 94, 103 and 110
    round as IEEE 754 binary32 does ([binary32]).

    [exec] runs such a tree against any engine and returns the result, the
    final engine state and the trace of actions and lock operations in
    program order.  [thread_step] interleaves several trees that compete for
    the monitors.  The theorems hold for every engine; a small reference
    engine runs them on concrete states. *)

From Stdlib Require Import ZArith QArith Qround Qabs Qpower Lqa Lia.
From stdpp Require Import base option list gmap relations.

Local Open Scope Z_scope.

(** ** Values of the C++ program *)

(** Object addresses; a null pointer is address 0. *)
Abbreviation nullptr := 0%Z (only parsing).

Inductive hipError_t : Set :=
| hipSuccess
| hipErrorInvalidValue
| hipErrorOutOfMemory
| hipErrorInvalidHandle
| hipErrorNotReady
| hipErrorLaunchOutOfResources.

(** Constants of headers that hip_event.cpp includes: the event creation
    flags of hip_runtime_api.h, OpenCL's [CL_COMPLETE] and
    [kMarkerDisableFlush] of hip_internal.hpp.  They are parameters of the
    development; [hip_constants] below instantiates them. *)
Class HipConstants : Type := {
  hipEventDefault : Z;
  hipEventBlockingSync : Z;
  hipEventDisableTiming : Z;
  hipEventReleaseToDevice : Z;
  hipEventReleaseToSystem : Z;
  CL_COMPLETE : Z;
  kMarkerDisableFlush : bool
}.

(** [amd::Event::profilingInfo()]: two [uint64_t] time stamps. *)
Record profilingInfo : Set := { start_ : Z; end_ : Z }.

(** A C++ integer used as a condition. *)
Definition truthy (x : Z) : bool := negb (x =? 0).

(** [unsigned] complement, 32 bits. *)
Definition not32 (x : Z) : Z := Z.lnot x mod 2 ^ 32.

(** [uint64_t] subtraction and the cast to [int64_t]. *)
Definition sub64 (x y : Z) : Z := (x - y) mod 2 ^ 64.

Definition to_int64 (u : Z) : Z := if u <? 2 ^ 63 then u else u - 2 ^ 64.

(** ** Single precision *)

(** A [float] is an IEEE 754 binary32 number: a sign, a significand of 24
    bits and an exponent between -126 and 127.  It is kept here as the
    rational it denotes.  A conversion to [float] and an operation on
    [float]s give the exact result rounded to the nearest such number, ties
    to the even significand, which is the default rounding mode.  The
    exponents that [elapsedTime] meets lie between -20 and 63 (lemma
    [ms_of_ticks_exponents]), so infinities and subnormal numbers do not
    arise and are not modelled. *)

(** [2^e] for any integer [e]. *)
Definition pow2 (e : Z) : Q := Qpower 2 e.

(** The exponent of [x > 0]: the [e] with [2^e <= x < 2^(e+1)].  The
    difference of the bit lengths of numerator and denominator is [e] or
    [e + 1]. *)
Definition ilog2 (x : Q) : Z :=
  let e := Z.log2 (Qnum x) - Z.log2 (Zpos (Qden x)) in
  if Qle_bool (pow2 e) x then e else e - 1.

(** The integer nearest to [x], the even one of two that are equally near. *)
Definition round_even (x : Q) : Z :=
  let m := Qfloor x in
  match Qcompare (x - inject_Z m) (1 # 2) with
  | Lt => m
  | Eq => if Z.even m then m else m + 1
  | Gt => m + 1
  end.

(** [x > 0] rounded to 24 significant bits: the unit in the last place is
    [2^(e-23)]. *)
Definition binary32_pos (x : Q) : Q :=
  let ulp := pow2 (ilog2 x - 23) in
  (inject_Z (round_even (x / ulp)) * ulp)%Q.

(** The [float] nearest to [x]. *)
Definition binary32 (x : Q) : Q :=
  match Qnum x with
  | 0 => 0%Q
  | Zpos _ => binary32_pos x
  | Zneg _ => (- binary32_pos (- x))%Q
  end.

(** [static_cast<float>(ticks)] on an [int64_t]. *)
Definition float_of_int64 (ticks : Z) : Q := binary32 (inject_Z ticks).

(** [x / y] on two [float]s. *)
Definition float_div (x y : Q) : Q := binary32 (x / y).

(** [static_cast<float>(ticks) / 1000000.f]; one million is a [float]. *)
Definition ms_of_ticks (ticks : Z) : Q := float_div (float_of_int64 ticks) 1000000.

(** The rationals [m * 2^e] with at most 24 bits in [m] and [e] from -149
    to 103: each of them is a [float]. *)
Definition is_float (x : Q) : Prop :=
  exists m e : Z,
    Z.abs m <= 2 ^ 24 /\ -149 <= e <= 103 /\ (x == inject_Z m * pow2 e)%Q.

(** ** Calls into the engine *)

(** Const accessors. *)
Inductive Obs : Set :=
| Status (h : Z)             (* event->status() *)
| ProfilingInfo (h : Z)      (* event->profilingInfo() *)
| CommandQueue (h : Z)       (* event->command().queue() *)
| CommandEvent (c : Z)       (* &command->event() *)
| CommandType (c : Z)        (* command->type() *)
| ProfilingEnabled (q : Z).  (* queue->properties().test(CL_QUEUE_PROFILING_ENABLE) *)

Definition obs_resp (o : Obs) : Set :=
  match o with
  | Status _ => Z
  | ProfilingInfo _ => profilingInfo
  | CommandQueue _ => Z
  | CommandEvent _ => Z
  | CommandType _ => Z
  | ProfilingEnabled _ => bool
  end.

(** Calls that may change the engine state. *)
Inductive Act : Set :=
| NotifyCmdQueue (h : Z)                           (* event->notifyCmdQueue() *)
| AwaitCompletion (h : Z)                          (* event->awaitCompletion() *)
| ReleaseEvent (h : Z)                             (* event->release() *)
| NewMarker (q : Z) (flag : bool) (waitList : list Z)  (* new amd::Marker(q, flag, waitList) *)
| NewProfileMarker (q : Z) (flag : bool)           (* new hip::ProfileMarker(q, flag) *)
| Enqueue (c : Z)                                  (* command->enqueue() *)
| CommandAwaitCompletion (c : Z)                   (* command->awaitCompletion() *)
| ReleaseCommand (c : Z)                           (* command->release() *)
| GetLastQueuedCommand (q : Z) (retain : bool).    (* queue->getLastQueuedCommand(retain) *)

Definition act_resp (a : Act) : Set :=
  match a with
  | NotifyCmdQueue _ => bool
  | AwaitCompletion _ => bool
  | ReleaseEvent _ => unit
  | NewMarker _ _ _ => Z
  | NewProfileMarker _ _ => Z
  | Enqueue _ => unit
  | CommandAwaitCompletion _ => bool
  | ReleaseCommand _ => unit
  | GetLastQueuedCommand _ _ => Z
  end.

(** The calls on which the calling thread waits for the device. *)
Definition blocking (a : Act) : bool :=
  match a with
  | AwaitCompletion _ | CommandAwaitCompletion _ => true
  | _ => false
  end.

(** ** Programs over the engine *)

Inductive Prog (A : Type) : Type :=
| Ret (a : A)
| Observe (o : Obs) (k : obs_resp o -> Prog A)
| Perform (a : Act) (k : act_resp a -> Prog A)
| Acquire (l : Z) (k : Prog A)    (* lock the monitor of the event at l *)
| Release (l : Z) (k : Prog A).   (* unlock it *)

Arguments Ret {A} a.
Arguments Observe {A} o k.
Arguments Perform {A} a k.
Arguments Acquire {A} l k.
Arguments Release {A} l k.

Fixpoint bind {A B : Type} (p : Prog A) (f : A -> Prog B) : Prog B :=
  match p with
  | Ret a => f a
  | Observe o k => Observe o (fun r => bind (k r) f)
  | Perform a k => Perform a (fun r => bind (k r) f)
  | Acquire l k => Acquire l (bind k f)
  | Release l k => Release l (bind k f)
  end.

Declare Scope prog_scope.
Delimit Scope prog_scope with prog.
Bind Scope prog_scope with Prog.

Notation "'let*' x ':=' p 'in' k" := (bind p (fun x => k))
  (at level 10, x binder, p at level 100, k at level 200) : prog_scope.
Notation "p ';;' k" := (bind p (fun _ => k))
  (at level 100, k at level 200, right associativity) : prog_scope.

Local Open Scope prog_scope.

(** The calls, typed. *)
Definition status (h : Z) : Prog Z := Observe (Status h) Ret.
Definition profilingInfo_of (h : Z) : Prog profilingInfo := Observe (ProfilingInfo h) Ret.
Definition command_queue (h : Z) : Prog Z := Observe (CommandQueue h) Ret.
Definition command_event (c : Z) : Prog Z := Observe (CommandEvent c) Ret.
Definition command_type (c : Z) : Prog Z := Observe (CommandType c) Ret.
Definition profiling_enabled (q : Z) : Prog bool := Observe (ProfilingEnabled q) Ret.

Definition notifyCmdQueue (h : Z) : Prog bool := Perform (NotifyCmdQueue h) Ret.
Definition awaitCompletion (h : Z) : Prog bool := Perform (AwaitCompletion h) Ret.
Definition release_event (h : Z) : Prog unit := Perform (ReleaseEvent h) Ret.
Definition new_Marker (q : Z) (flag : bool) (waitList : list Z) : Prog Z :=
  Perform (NewMarker q flag waitList) Ret.
Definition new_ProfileMarker (q : Z) (flag : bool) : Prog Z :=
  Perform (NewProfileMarker q flag) Ret.
Definition enqueue (c : Z) : Prog unit := Perform (Enqueue c) Ret.
Definition command_awaitCompletion (c : Z) : Prog bool :=
  Perform (CommandAwaitCompletion c) Ret.
Definition release_command (c : Z) : Prog unit := Perform (ReleaseCommand c) Ret.
Definition getLastQueuedCommand (q : Z) (retain : bool) : Prog Z :=
  Perform (GetLastQueuedCommand q retain) Ret.

(** [amd::ScopedLock lock(l); body]: the monitor is held for the rest of the
    scope and released on every way out of it. *)
Definition ScopedLock {A : Type} (l : Z) (body : Prog A) : Prog A :=
  Acquire l (let* r := body in Release l (Ret r)).

(** An engine: what the accessors read and what the actions do. *)
Record Engine (W : Type) : Type := {
  observe : forall o : Obs, W -> obs_resp o;
  perform : forall a : Act, W -> act_resp a * W
}.

Arguments observe {W} _ o w.
Arguments perform {W} _ a w.

Inductive Step : Set :=
| Did (a : Act)
| Locked (l : Z)
| Unlocked (l : Z).

(** One thread running alone. *)
Fixpoint exec {W A : Type} (E : Engine W) (p : Prog A) (w : W)
  : A * W * list Step :=
  match p with
  | Ret a => (a, w, [])
  | Observe o k => exec E (k (observe E o w)) w
  | Perform a k =>
      let rw := perform E a w in
      let x := exec E (k rw.1) rw.2 in (x.1.1, x.1.2, Did a :: x.2)
  | Acquire l k => let x := exec E k w in (x.1.1, x.1.2, Locked l :: x.2)
  | Release l k => let x := exec E k w in (x.1.1, x.1.2, Unlocked l :: x.2)
  end.

Definition result {W A : Type} (r : A * W * list Step) : A := r.1.1.
Definition final {W A : Type} (r : A * W * list Step) : W := r.1.2.
Definition trace {W A : Type} (r : A * W * list Step) : list Step := r.2.

Definition waits (s : Step) : bool :=
  match s with Did a => blocking a | _ => false end.

Definition is_new_marker (s : Step) : bool :=
  match s with Did (NewMarker _ _ _) | Did (NewProfileMarker _ _) => true | _ => false end.

(** A step that takes or drops a monitor other than the one at [l]. *)
Definition other_monitor (l : Z) (s : Step) : bool :=
  match s with
  | Locked l' | Unlocked l' => negb (l' =? l)
  | Did _ => false
  end.

(** ** hip::Event *)

(** The data members of [hip::Event]; [lock_] is the monitor at the event's
    own address. *)
Record Event : Set := {
  flags : Z;         (* unsigned int flags *)
  event_ : Z;        (* amd::Event* event_ *)
  recorded_ : bool   (* bool recorded_ *)
}.

(** Modelled from the spec: the constructor [hip::Event::Event(unsigned)] of
    hip_event.hpp, a header that is not among the sources.  The spec's
    lifecycle reads: created with the flags validated, [handle = null],
    [recorded = false]. *)
Definition Event_new (flags : Z) : Event :=
  {| flags := flags; event_ := nullptr; recorded_ := false |}.

Section hip.
Context `{HipConstants}.

(** [flags & hipEventDisableTiming] *)
Definition timingDisabled (e : Event) : bool :=
  truthy (Z.land (flags e) hipEventDisableTiming).

(** [bool Event::ready()] *)
Definition Event_ready (self : Event) : Prog bool :=
  let* s := status (event_ self) in
  (if negb (s =? CL_COMPLETE)
   then notifyCmdQueue (event_ self) ;; Ret tt
   else Ret tt) ;;
  let* s' := status (event_ self) in
  Ret (s' =? CL_COMPLETE).

(** [hipError_t Event::query()] *)
Definition Event_query (this : Z) (self : Event) : Prog hipError_t :=
  ScopedLock this
    (if event_ self =? nullptr then Ret hipSuccess
     else let* r := Event_ready self in
          Ret (if r then hipSuccess else hipErrorNotReady)).

(** [hipError_t Event::synchronize()] *)
Definition Event_synchronize (this : Z) (self : Event) : Prog hipError_t :=
  ScopedLock this
    (if event_ self =? nullptr then Ret hipSuccess
     else awaitCompletion (event_ self) ;; Ret hipSuccess).

(** [static_cast<float>(static_cast<int64_t>(x - y)) / 1000000.f] on two
    [uint64_t] time stamps. *)
Definition elapsed_ms (x y : Z) : Q := ms_of_ticks (to_int64 (sub64 x y)).

(** Lines 93 to 113 of [elapsedTime]: the three ways to measure, taken once
    both events have passed the checks. *)
Definition elapsedTime_measure (self stop : Event) : Prog (hipError_t * Q) :=
  if negb (event_ self =? event_ stop) && recorded_ self && recorded_ stop
  then
    let* pe := profilingInfo_of (event_ stop) in
    let* ps := profilingInfo_of (event_ self) in
    Ret (hipSuccess, elapsed_ms (end_ pe) (end_ ps))
  else if (event_ self =? event_ stop) && (recorded_ self || recorded_ stop)
  then
    let* q := command_queue (event_ self) in
    let* command := new_Marker q kMarkerDisableFlush [] in
    enqueue command ;;
    command_awaitCompletion command ;;
    let* ce := command_event command in
    let* pm := profilingInfo_of ce in
    let* ps := profilingInfo_of (event_ self) in
    release_command command ;;
    Ret (hipSuccess, elapsed_ms (end_ pm) (end_ ps))
  else
    let* pe := profilingInfo_of (event_ stop) in
    let* ps := profilingInfo_of (event_ self) in
    Ret (hipSuccess, elapsed_ms (end_ pe) (start_ ps)).

(** [hipError_t Event::elapsedTime(Event& eStop, float& ms)].  [this] and
    [eStop] are the addresses of the two objects, [self] and [stop] their
    contents; [ms] comes in with the caller's value and goes out with it on
    the error paths. *)
Definition Event_elapsedTime (this : Z) (self : Event) (eStop : Z) (stop : Event)
    (ms : Q) : Prog (hipError_t * Q) :=
  ScopedLock this
    (if this =? eStop then
       if event_ self =? nullptr then Ret (hipErrorInvalidHandle, ms)
       else if truthy (Z.land (flags self) hipEventDisableTiming)
       then Ret (hipErrorInvalidHandle, ms)
       else let* r := Event_ready self in
            if negb r then Ret (hipErrorNotReady, ms)
            else Ret (hipSuccess, 0%Q)
     else
       ScopedLock eStop
         (if (event_ self =? nullptr) || (event_ stop =? nullptr)
          then Ret (hipErrorInvalidHandle, ms)
          else if truthy (Z.land (Z.lor (flags self) (flags stop)) hipEventDisableTiming)
          then Ret (hipErrorInvalidHandle, ms)
          else
            let* r1 := Event_ready self in
            if negb r1 then Ret (hipErrorNotReady, ms)
            else
              let* r2 := Event_ready stop in
              if negb r2 then Ret (hipErrorNotReady, ms)
              else elapsedTime_measure self stop)).

(** [hipError_t Event::streamWait(amd::HostQueue* hostQueue, uint flags)].
    The first test runs before the monitor is taken; the parameter [flags]
    and the local [retain] are not used by the body. *)
Definition Event_streamWait (this : Z) (self : Event) (hostQueue : Z) (flags' : Z)
    : Prog hipError_t :=
  if event_ self =? nullptr then Ret hipSuccess
  else
    let* q := command_queue (event_ self) in
    if q =? hostQueue then Ret hipSuccess
    else
      ScopedLock this
        (let* ok := notifyCmdQueue (event_ self) in
         if negb ok then Ret hipErrorLaunchOutOfResources
         else
           let* command := new_Marker hostQueue kMarkerDisableFlush [event_ self] in
           if command =? nullptr then Ret hipErrorOutOfMemory
           else
             enqueue command ;;
             release_command command ;;
             Ret hipSuccess).

(** The command that [addMarker] binds: lines 143 to 160. *)
Definition addMarker_command (queue command : Z) : Prog Z :=
  let* prof := profiling_enabled queue in
  if prof then
    if command =? nullptr then
      let* last := getLastQueuedCommand queue true in
      let* invisible :=
        (if last =? nullptr then Ret true
         else let* ty := command_type last in Ret (ty =? 0)) in
      if invisible then
        (if negb (last =? nullptr) then release_command last else Ret tt) ;;
        let* marker := new_Marker queue kMarkerDisableFlush [] in
        enqueue marker ;;
        Ret marker
      else Ret last
    else Ret command
  else if command =? nullptr then
    let* marker := new_ProfileMarker queue false in
    enqueue marker ;;
    Ret marker
  else Ret command.

(** [void Event::addMarker(amd::HostQueue* queue, amd::Command* command,
    bool record)]; the result is the content of the object afterwards. *)
Definition Event_addMarker (this : Z) (self : Event) (queue command : Z)
    (record : bool) : Prog Event :=
  ScopedLock this
    (let* command' := addMarker_command queue command in
     let* ce := command_event command' in
     if event_ self =? ce then Ret self
     else
       (if negb (event_ self =? nullptr) then release_event (event_ self)
        else Ret tt) ;;
       let* ce' := command_event command' in
       Ret {| flags := flags self; event_ := ce'; recorded_ := record |}).

(** [hipError_t ihipEventCreateWithFlags(hipEvent_t* event, unsigned flags)].
    [event] is [None] for a null output slot and [Some v] for a slot that
    holds [v]; [newp] is what [new hip::Event(flags)] returns; the heap of
    event objects and the slot are returned with the error code.  The
    new-expression of line 188 is a plain one, which throws when the
    allocation fails and does not yield a null pointer: the test of line
    190 is embedded as written, and [create_never_out_of_memory] shows that
    it does not fire on the address of an object. *)
Definition ihipEventCreateWithFlags (heap : gmap Z Event) (event : option Z)
    (flags : Z) (newp : Z) : hipError_t * gmap Z Event * option Z :=
  match event with
  | None => (hipErrorInvalidValue, heap, None)
  | Some old =>
      let supportedFlags :=
        Z.lor (Z.lor (Z.lor (Z.lor hipEventDefault hipEventBlockingSync)
                 hipEventDisableTiming) hipEventReleaseToDevice)
          hipEventReleaseToSystem in
      let releaseFlags := Z.lor hipEventReleaseToDevice hipEventReleaseToSystem in
      let illegalFlags :=
        truthy (Z.land flags (not32 supportedFlags))
        || (Z.land flags releaseFlags =? releaseFlags) in
      if negb illegalFlags then
        if newp =? nullptr then (hipErrorOutOfMemory, heap, Some old)
        else (hipSuccess, <[newp := Event_new flags]> heap, Some newp)
      else (hipErrorInvalidValue, heap, Some old)
  end.

(** The checks of lines 80 to 91 on two distinct events, all passed: both
    handles bound, timing disabled on neither, [ready()] true on [self] and
    then on [stop].  [w'] is the engine state and [t] the engine calls that
    the two [ready()] leave. *)
Definition validated {W : Type} (E : Engine W) (self stop : Event)
    (w w' : W) (t : list Step) : Prop :=
  event_ self <> nullptr /\ event_ stop <> nullptr /\
  timingDisabled self = false /\ timingDisabled stop = false /\
  exists w1 t1 t2,
    exec E (Event_ready self) w = (true, w1, t1) /\
    exec E (Event_ready stop) w1 = (true, w', t2) /\
    t = t1 ++ t2.

(** [flags] has a bit that none of the five recognised flags has. *)
Definition unsupported_bit (flags : Z) : Prop :=
  exists i, 0 <= i /\ Z.testbit flags i = true /\
    Z.testbit hipEventDefault i = false /\
    Z.testbit hipEventBlockingSync i = false /\
    Z.testbit hipEventDisableTiming i = false /\
    Z.testbit hipEventReleaseToDevice i = false /\
    Z.testbit hipEventReleaseToSystem i = false.

(** [flags] holds both release flags. *)
Definition both_release (flags : Z) : Prop :=
  Z.land flags hipEventReleaseToDevice = hipEventReleaseToDevice /\
  Z.land flags hipEventReleaseToSystem = hipEventReleaseToSystem.

(** What the event layer needs of [awaitCompletion]: it returns with the
    handle complete, and it leaves the engine alone when the handle already
    is. *)
Definition await_contract {W : Type} (E : Engine W) : Prop :=
  (forall h w, observe E (Status h) (perform E (AwaitCompletion h) w).2 = CL_COMPLETE) /\
  (forall h w, observe E (Status h) w = CL_COMPLETE ->
               (perform E (AwaitCompletion h) w).2 = w).

End hip.

(** ** Several host threads *)

(** A configuration: the engine state, who holds which monitor, and what
    each thread has left to run. *)
Record Conf (W R : Type) : Type := {
  c_world : W;
  c_owner : gmap Z nat;
  c_threads : list (Prog R)
}.

Arguments c_world {W R} c.
Arguments c_owner {W R} c.
Arguments c_threads {W R} c.

Definition finished {R : Type} (p : Prog R) : bool :=
  match p with Ret _ => true | _ => false end.

(** Thread [i] takes its next step, if it can: a thread that has returned
    has none, and a thread at the constructor of a [ScopedLock] waits while
    another thread holds the monitor. *)
Definition thread_step {W R : Type} (E : Engine W) (i : nat) (c : Conf W R)
  : option (Conf W R) :=
  match c_threads c !! i with
  | None => None
  | Some (Ret _) => None
  | Some (Observe o k) =>
      Some {| c_world := c_world c; c_owner := c_owner c;
              c_threads := <[i := k (observe E o (c_world c))]> (c_threads c) |}
  | Some (Perform a k) =>
      let rw := perform E a (c_world c) in
      Some {| c_world := rw.2; c_owner := c_owner c;
              c_threads := <[i := k rw.1]> (c_threads c) |}
  | Some (Acquire l k) =>
      match c_owner c !! l with
      | Some _ => None
      | None =>
          Some {| c_world := c_world c; c_owner := <[l := i]> (c_owner c);
                  c_threads := <[i := k]> (c_threads c) |}
      end
  | Some (Release l k) =>
      Some {| c_world := c_world c; c_owner := delete l (c_owner c);
              c_threads := <[i := k]> (c_threads c) |}
  end.

Definition step {W R : Type} (E : Engine W) (c c' : Conf W R) : Prop :=
  exists i, thread_step E i c = Some c'.

(** No thread can move and some thread has not returned. *)
Definition deadlocked {W R : Type} (E : Engine W) (c : Conf W R) : Prop :=
  (exists i p, c_threads c !! i = Some p /\ finished p = false)
  /\ forall i, thread_step E i c = None.

(** The threads run in the order a schedule lists them. *)
Fixpoint run_schedule {W R : Type} (E : Engine W) (s : list nat) (c : Conf W R)
  : option (Conf W R) :=
  match s with
  | [] => Some c
  | i :: s' =>
      match thread_step E i c with
      | Some c' => run_schedule E s' c'
      | None => None
      end
  end.

Definition start {W R : Type} (w : W) (ps : list (Prog R)) : Conf W R :=
  {| c_world := w; c_owner := ∅; c_threads := ps |}.

(** ** A reference engine *)

(** An instance to run the theorems on concrete values: what the constants
    are in hip_runtime_api.h, CL/cl.h and hip_internal.hpp, headers that are
    not among the sources.  The theorems are stated for every instance. *)
Definition hip_constants : HipConstants :=
  {| hipEventDefault := 0x0;
     hipEventBlockingSync := 0x1;
     hipEventDisableTiming := 0x2;
     hipEventReleaseToDevice := 0x40000000;
     hipEventReleaseToSystem := 0x80000000;
     CL_COMPLETE := 0x0;
     kMarkerDisableFlush := true |}.

(** Modelled from the spec: the Queue and CompletionHandle engine (ROCclr's
    [amd::Command], [amd::Event], [amd::HostQueue]), an external
    collaborator of which the sources hold only the calls.  After sections 2
    and 6 of the spec: a command is a reference-counted unit of work with a
    status and, once complete, a start and an end time stamp; a queue knows
    whether it was created with timing and which command was enqueued last;
    waiting for a command completes it; a nudge lets the queue make progress
    and may fail.  A command and its completion handle share one address.
    The theorems below hold for every engine; this one runs them on concrete
    states. *)
Record RCommand : Set := {
  rc_queue : Z;
  rc_type : Z;
  rc_status : Z;
  rc_info : profilingInfo;
  rc_refs : Z;
  rc_waitList : list Z
}.

Record RWorld : Type := {
  rw_commands : gmap Z RCommand;
  rw_last : gmap Z Z;
  rw_profiling : gmap Z bool;
  rw_clock : Z;
  rw_next : Z;
  rw_nudge : bool
}.

Definition CL_QUEUED : Z := 0x3.

Definition rc_default : RCommand :=
  {| rc_queue := 0; rc_type := 0; rc_status := CL_QUEUED;
     rc_info := {| start_ := 0; end_ := 0 |}; rc_refs := 0; rc_waitList := [] |}.

Definition rw_command (w : RWorld) (c : Z) : RCommand :=
  default rc_default (rw_commands w !! c).

Definition rw_set_commands (w : RWorld) (m : gmap Z RCommand) : RWorld :=
  {| rw_commands := m; rw_last := rw_last w; rw_profiling := rw_profiling w;
     rw_clock := rw_clock w; rw_next := rw_next w; rw_nudge := rw_nudge w |}.

Definition rc_add_refs (d : Z) (c : RCommand) : RCommand :=
  {| rc_queue := rc_queue c; rc_type := rc_type c; rc_status := rc_status c;
     rc_info := rc_info c; rc_refs := rc_refs c + d; rc_waitList := rc_waitList c |}.

Definition rw_add_refs (d : Z) (c : Z) (w : RWorld) : RWorld :=
  rw_set_commands w (alter (rc_add_refs d) c (rw_commands w)).

(** Waiting for a command: a complete one is left alone; a pending one runs
    on the device clock and becomes complete. *)
Definition rw_complete (c : Z) (w : RWorld) : RWorld :=
  let r := rw_command w c in
  if rc_status r =? 0 then w
  else
    {| rw_commands :=
         <[c := {| rc_queue := rc_queue r; rc_type := rc_type r; rc_status := 0;
                   rc_info := {| start_ := rw_clock w; end_ := rw_clock w + 1 |};
                   rc_refs := rc_refs r; rc_waitList := rc_waitList r |}]>
           (rw_commands w);
       rw_last := rw_last w; rw_profiling := rw_profiling w;
       rw_clock := rw_clock w + 2; rw_next := rw_next w; rw_nudge := rw_nudge w |}.

Definition rw_new_command (q : Z) (waitList : list Z) (w : RWorld) : Z * RWorld :=
  (rw_next w,
   {| rw_commands :=
        <[rw_next w := {| rc_queue := q; rc_type := 0; rc_status := CL_QUEUED;
                          rc_info := {| start_ := 0; end_ := 0 |};
                          rc_refs := 1; rc_waitList := waitList |}]> (rw_commands w);
      rw_last := rw_last w; rw_profiling := rw_profiling w;
      rw_clock := rw_clock w; rw_next := rw_next w + 1; rw_nudge := rw_nudge w |}).

Definition rw_enqueue (c : Z) (w : RWorld) : RWorld :=
  let w1 := rw_add_refs 1 c w in
  {| rw_commands := rw_commands w1;
     rw_last := <[rc_queue (rw_command w c) := c]> (rw_last w);
     rw_profiling := rw_profiling w; rw_clock := rw_clock w;
     rw_next := rw_next w; rw_nudge := rw_nudge w |}.

Definition ref_observe (o : Obs) (w : RWorld) : obs_resp o :=
  match o as o' return obs_resp o' with
  | Status h => rc_status (rw_command w h)
  | ProfilingInfo h => rc_info (rw_command w h)
  | CommandQueue h => rc_queue (rw_command w h)
  | CommandEvent c => c
  | CommandType c => rc_type (rw_command w c)
  | ProfilingEnabled q => default false (rw_profiling w !! q)
  end.

Definition ref_perform (a : Act) (w : RWorld) : act_resp a * RWorld :=
  match a as a' return act_resp a' * RWorld with
  | NotifyCmdQueue _ => (rw_nudge w, w)
  | AwaitCompletion h => (true, rw_complete h w)
  | ReleaseEvent h => (tt, rw_add_refs (-1) h w)
  | NewMarker q _ waitList => rw_new_command q waitList w
  | NewProfileMarker q _ => rw_new_command q [] w
  | Enqueue c => (tt, rw_enqueue c w)
  | CommandAwaitCompletion c => (true, rw_complete c w)
  | ReleaseCommand c => (tt, rw_add_refs (-1) c w)
  | GetLastQueuedCommand q retain =>
      let c := default 0 (rw_last w !! q) in
      (c, if retain && negb (c =? 0) then rw_add_refs 1 c w else w)
  end.

Definition RefEngine : Engine RWorld :=
  {| observe := ref_observe; perform := ref_perform |}.

(** The reference count the engine holds for a command. *)
Definition refcount (w : RWorld) (c : Z) : Z := rc_refs (rw_command w c).

(** A concrete state: two timing-enabled queues 100 and 200; the commands 1
    and 2 on queue 100 have completed, command 3 on queue 200 is pending;
    command 2 is the last one of queue 100. *)
Definition demo_world : RWorld :=
  {| rw_commands :=
       <[1 := {| rc_queue := 100; rc_type := 0x11F0; rc_status := 0;
                 rc_info := {| start_ := 10; end_ := 20 |};
                 rc_refs := 2; rc_waitList := [] |}]>
       (<[2 := {| rc_queue := 100; rc_type := 0x11F0; rc_status := 0;
                  rc_info := {| start_ := 30; end_ := 50 |};
                  rc_refs := 2; rc_waitList := [] |}]>
       (<[3 := {| rc_queue := 200; rc_type := 0x11F0; rc_status := CL_QUEUED;
                  rc_info := {| start_ := 0; end_ := 0 |};
                  rc_refs := 2; rc_waitList := [] |}]> ∅));
     rw_last := <[100 := 2]> (<[200 := 3]> ∅);
     rw_profiling := <[100 := true]> (<[200 := true]> ∅);
     rw_clock := 60;
     rw_next := 4;
     rw_nudge := true |}.

(** The same state with a queue that cannot be nudged. *)
Definition stuck_world : RWorld :=
  {| rw_commands := rw_commands demo_world; rw_last := rw_last demo_world;
     rw_profiling := rw_profiling demo_world; rw_clock := rw_clock demo_world;
     rw_next := rw_next demo_world; rw_nudge := false |}.

(** Events bound to these commands. *)
Definition ev (flags handle : Z) (recorded : bool) : Event :=
  {| flags := flags; event_ := handle; recorded_ := recorded |}.

(** The schedule in which thread 0 takes [n] steps and then thread 1 takes
    [n]: one call runs from start to end, and then the other. *)
Definition in_turn (n : nat) : list nat := replicate n 0%nat ++ replicate n 1%nat.

(** [p], run on the engine state [w], comes back with [r] without a single
    action: it only reads the engine and takes and drops monitors. *)
Fixpoint returns {W R : Type} (E : Engine W) (w : W) (p : Prog R) (r : R) : Prop :=
  match p with
  | Ret a => a = r
  | Observe o k => returns E w (k (observe E o w)) r
  | Perform _ _ => False
  | Acquire _ k => returns E w k r
  | Release _ k => returns E w k r
  end.

(** [p] on thread [i], alone on the engine state [w] while the monitors are
    held as [owner] says: every monitor it takes is free, it calls no
    action, and it comes back with [r] and the monitors as in [owner']. *)
Fixpoint runs_alone {W R : Type} (E : Engine W) (w : W) (i : nat)
    (owner : gmap Z nat) (p : Prog R) (r : R) (owner' : gmap Z nat) : Prop :=
  match p with
  | Ret a => a = r /\ owner = owner'
  | Observe o k => runs_alone E w i owner (k (observe E o w)) r owner'
  | Perform _ _ => False
  | Acquire l k => owner !! l = None /\ runs_alone E w i (<[l := i]> owner) k r owner'
  | Release l k => runs_alone E w i (delete l owner) k r owner'
  end.

(** [Q] holds of the result and the trace of [p] whatever the engine
    answers. *)
Fixpoint all_paths {A : Type} (p : Prog A) (Q : A -> list Step -> Prop) : Prop :=
  match p with
  | Ret a => Q a []
  | Observe o k => forall r, all_paths (k r) Q
  | Perform a k => forall r, all_paths (k r) (fun x t => Q x (Did a :: t))
  | Acquire l k => all_paths k (fun x t => Q x (Locked l :: t))
  | Release l k => all_paths k (fun x t => Q x (Unlocked l :: t))
  end.

Definition is_release_of (p : Z) (s : Step) : bool :=
  match s with
  | Did (ReleaseEvent h) => h =? p
  | Did (ReleaseCommand c) => c =? p
  | _ => false
  end.

(** A thread that holds the monitors [hs], the last one taken first, keeps
    the lock order to the end of [p]: it takes a monitor only when every
    monitor it holds has a smaller address, it releases the monitor it took
    last, and it ends holding [hs']. *)
Fixpoint disciplined {R : Type} (hs : list Z) (p : Prog R) (hs' : list Z) : Prop :=
  match p with
  | Ret _ => hs = hs'
  | Observe _ k => forall r, disciplined hs (k r) hs'
  | Perform _ k => forall r, disciplined hs (k r) hs'
  | Acquire l k => Forall (fun h => h < l) hs /\ disciplined (l :: hs) k hs'
  | Release l k =>
      match hs with
      | h :: t => h = l /\ disciplined t k hs'
      | [] => False
      end
  end.

(** The monitor a thread is about to take. *)
Definition awaited {R : Type} (p : Prog R) : option Z :=
  match p with Acquire l _ => Some l | _ => None end.

(** The threads of [c] keep the lock order, each holding the monitors that
    [stacks] lists for it, and [c_owner] says the same. *)
Definition lock_inv {W R : Type} (c : Conf W R) (stacks : list (list Z)) : Prop :=
  Forall2 (fun p hs => disciplined hs p [] /\ NoDup hs) (c_threads c) stacks
  /\ forall l i, c_owner c !! l = Some i <->
                 exists hs, stacks !! i = Some hs /\ l ∈ hs.

(** A call of a method of [hip::Event] by some thread, its result dropped. *)
Inductive Call : Type :=
| CallQuery (this : Z) (self : Event)
| CallSynchronize (this : Z) (self : Event)
| CallElapsedTime (this : Z) (self : Event) (eStop : Z) (stop : Event) (ms : Q)
| CallStreamWait (this : Z) (self : Event) (hostQueue flags' : Z)
| CallAddMarker (this : Z) (self : Event) (queue command : Z) (record : bool).

Definition call_prog `{HipConstants} (c : Call) : Prog unit :=
  match c with
  | CallQuery this self => Event_query this self ;; Ret tt
  | CallSynchronize this self => Event_synchronize this self ;; Ret tt
  | CallElapsedTime this self eStop stop ms =>
      Event_elapsedTime this self eStop stop ms ;; Ret tt
  | CallStreamWait this self hostQueue flags' =>
      Event_streamWait this self hostQueue flags' ;; Ret tt
  | CallAddMarker this self queue command record =>
      Event_addMarker this self queue command record ;; Ret tt
  end.

(** [elapsedTime] is called with the start event at the lower address. *)
Definition ordered_call (c : Call) : Prop :=
  match c with
  | CallElapsedTime this _ eStop _ _ => this <= eStop
  | _ => True
  end.

(** [hipError_t ihipEventQuery(hipEvent_t event)] on a heap of event
    objects.  [None] stands for a handle that is not null and is not the
    address of an event object, on which the cast of line 206 gives a
    pointer that must not be used. *)
Definition ihipEventQuery `{HipConstants} (heap : gmap Z Event) (event : Z)
  : option (Prog hipError_t) :=
  if event =? nullptr then Some (Ret hipErrorInvalidHandle)
  else
    match heap !! event with
    | Some e => Some (Event_query event e)
    | None => None
    end.

(** The concrete state with an allocator that gives a null pointer for the
    next command. *)
Definition oom_world : RWorld :=
  {| rw_commands := rw_commands demo_world; rw_last := rw_last demo_world;
     rw_profiling := rw_profiling demo_world; rw_clock := rw_clock demo_world;
     rw_next := nullptr; rw_nudge := true |}.

(** Three calls on the events at 1000 and 2000, both bound to complete
    commands of the concrete state. *)
Definition demo_calls : list Call :=
  [CallElapsedTime 1000 (ev 0 1 true) 2000 (ev 0 2 true) 0;
   CallElapsedTime 1000 (ev 0 1 true) 2000 (ev 0 2 true) 0;
   CallQuery 2000 (ev 0 2 true)].

(** * Properties *)

(** ** Integers *)

Lemma truthy_true (x : Z) : truthy x = true <-> x <> 0.
Proof. unfold truthy. destruct (Z.eqb_spec x 0); simpl; split; congruence. Qed.

(** The test of line 85 on the two flag words together is the test of
    line 67 on either. *)
Lemma truthy_land_lor (a b c : Z) :
  truthy (Z.land (Z.lor a b) c) = truthy (Z.land a c) || truthy (Z.land b c).
Proof.
  rewrite Z.land_lor_distr_l. unfold truthy.
  destruct (Z.eqb_spec (Z.land a c) 0) as [Ha|Ha];
    destruct (Z.eqb_spec (Z.land b c) 0) as [Hb|Hb]; simpl.
  - rewrite Ha, Hb. reflexivity.
  - destruct (Z.eqb_spec (Z.lor (Z.land a c) (Z.land b c)) 0) as [H0|H0]; [|done].
    apply Z.lor_eq_0_iff in H0. tauto.
  - destruct (Z.eqb_spec (Z.lor (Z.land a c) (Z.land b c)) 0) as [H0|H0]; [|done].
    apply Z.lor_eq_0_iff in H0. tauto.
  - destruct (Z.eqb_spec (Z.lor (Z.land a c) (Z.land b c)) 0) as [H0|H0]; [|done].
    apply Z.lor_eq_0_iff in H0. tauto.
Qed.

(** The 64-bit difference read as [int64_t] is in the range of [int64_t]. *)
Lemma to_int64_sub64_range (x y : Z) : - 2 ^ 63 <= to_int64 (sub64 x y) < 2 ^ 63.
Proof.
  pose proof (Z.mod_pos_bound (x - y) (2 ^ 64) ltac:(lia)) as Hb.
  unfold to_int64, sub64.
  destruct (Z.ltb_spec ((x - y) mod 2 ^ 64) (2 ^ 63)); lia.
Qed.

(** Away from the wrap-around the 64-bit difference read as [int64_t] is the
    difference of the two time stamps. *)
Lemma to_int64_sub64 (x y : Z) :
  - 2 ^ 63 <= x - y < 2 ^ 63 -> to_int64 (sub64 x y) = x - y.
Proof.
  intros Hr. unfold to_int64, sub64.
  destruct (Z_lt_le_dec (x - y) 0) as [Hneg|Hpos].
  - replace ((x - y) mod 2 ^ 64) with (x - y + 2 ^ 64).
    + destruct (Z.ltb_spec (x - y + 2 ^ 64) (2 ^ 63)); lia.
    + symmetry. rewrite <- (Z.mod_add (x - y) 1 (2 ^ 64)) by lia.
      rewrite Z.mul_1_l. apply Z.mod_small. lia.
  - rewrite Z.mod_small by lia.
    destruct (Z.ltb_spec (x - y) (2 ^ 63)); lia.
Qed.

(** ** Single precision *)

Section binary32.
Local Open Scope Q_scope.

Lemma pow2_pos (e : Z) : 0 < pow2 e.
Proof. apply Qpower_0_lt. reflexivity. Qed.

Lemma pow2_add (a b : Z) : pow2 (a + b) == pow2 a * pow2 b.
Proof. apply Qpower_plus. discriminate. Qed.

Lemma pow2_Z (a : Z) : (0 <= a)%Z -> pow2 a == inject_Z (2 ^ a).
Proof. intros Ha. unfold pow2. rewrite Zpower_Qpower by exact Ha. reflexivity. Qed.

Lemma pow2_sub (a b : Z) :
  (0 <= a)%Z -> (0 <= b)%Z -> pow2 (a - b) == inject_Z (2 ^ a) / inject_Z (2 ^ b).
Proof.
  intros Ha Hb. unfold pow2. rewrite Qpower_minus by discriminate.
  rewrite !Zpower_Qpower by assumption. reflexivity.
Qed.

Lemma Qmake_lt_pow2 (n : Z) (d : positive) (a b : Z) :
  (0 <= a)%Z -> (0 <= b)%Z ->
  (n * 2 ^ b < 2 ^ a * Zpos d)%Z -> n # d < pow2 (a - b).
Proof.
  intros Ha Hb Hlt. rewrite pow2_sub by assumption.
  assert (Hp : (0 < 2 ^ b)%Z) by (apply Z.pow_pos_nonneg; lia).
  apply Qlt_shift_div_l.
  - rewrite <- (Zlt_Qlt 0). exact Hp.
  - unfold Qlt, Qmult, inject_Z. simpl. lia.
Qed.

Lemma Qmake_ge_pow2 (n : Z) (d : positive) (a b : Z) :
  (0 <= a)%Z -> (0 <= b)%Z ->
  (2 ^ a * Zpos d <= n * 2 ^ b)%Z -> pow2 (a - b) <= n # d.
Proof.
  intros Ha Hb Hle. rewrite pow2_sub by assumption.
  assert (Hp : (0 < 2 ^ b)%Z) by (apply Z.pow_pos_nonneg; lia).
  apply Qle_shift_div_r.
  - rewrite <- (Zlt_Qlt 0). exact Hp.
  - unfold Qle, Qmult, inject_Z. simpl. lia.
Qed.

(** [ilog2] is the exponent. *)
Lemma ilog2_spec (x : Q) : 0 < x -> pow2 (ilog2 x) <= x /\ x < pow2 (ilog2 x + 1).
Proof.
  intros Hx. destruct x as [n d].
  assert (Hn : (0 < n)%Z) by (unfold Qlt in Hx; simpl in Hx; lia).
  unfold ilog2. simpl Qnum. simpl Qden.
  pose proof (Z.log2_spec n Hn) as [Hn1 Hn2].
  pose proof (Z.log2_spec (Zpos d) eq_refl) as [Hd1 Hd2].
  pose proof (Z.log2_nonneg n) as Ha.
  pose proof (Z.log2_nonneg (Zpos d)) as Hb.
  set (a := Z.log2 n) in *. set (b := Z.log2 (Zpos d)) in *.
  assert (Hpa : (0 < 2 ^ a)%Z) by (apply Z.pow_pos_nonneg; lia).
  assert (Hpb : (0 < 2 ^ b)%Z) by (apply Z.pow_pos_nonneg; lia).
  rewrite Z.pow_succ_r in Hn2, Hd2 by assumption.
  assert (Hup : n # d < pow2 (a - b + 1)).
  { replace (a - b + 1)%Z with (Z.succ a - b)%Z by lia.
    apply Qmake_lt_pow2; [lia|lia|].
    rewrite Z.pow_succ_r by assumption. nia. }
  assert (Hlow : pow2 (a - b - 1) <= n # d).
  { replace (a - b - 1)%Z with (a - Z.succ b)%Z by lia.
    apply Qmake_ge_pow2; [lia|lia|].
    rewrite Z.pow_succ_r by assumption. nia. }
  destruct (Qle_bool (pow2 (a - b)) (n # d)) eqn:Hc.
  - apply Qle_bool_iff in Hc. split; assumption.
  - split; [exact Hlow|].
    replace (a - b - 1 + 1)%Z with (a - b)%Z by lia.
    apply Qnot_le_lt. intros Hle. apply Qle_bool_iff in Hle. congruence.
Qed.

Lemma ilog2_bounds (x : Q) (a b : Z) :
  0 < x -> pow2 a <= x -> x < pow2 b -> (a <= ilog2 x < b)%Z.
Proof.
  intros Hx Ha Hb. destruct (ilog2_spec x Hx) as [Hlo Hhi].
  assert (H1 : pow2 (ilog2 x) < pow2 b) by (eapply Qle_lt_trans; eassumption).
  assert (H2 : pow2 a < pow2 (ilog2 x + 1)) by (eapply Qle_lt_trans; eassumption).
  apply Qpower_lt_compat_l_inv in H1; [|reflexivity].
  apply Qpower_lt_compat_l_inv in H2; [|reflexivity].
  lia.
Qed.

(** [round_even] is within one half of its argument. *)
Lemma round_even_near (x : Q) :
  x - (1 # 2) <= inject_Z (round_even x) <= x + (1 # 2).
Proof.
  pose proof (Qfloor_le x) as Hlo. pose proof (Qlt_floor x) as Hhi.
  rewrite inject_Z_plus in Hhi. change (inject_Z 1) with 1 in Hhi.
  unfold round_even.
  destruct (Qcompare (x - inject_Z (Qfloor x)) (1 # 2)) eqn:Hc.
  - apply Qeq_alt in Hc.
    destruct (Z.even (Qfloor x));
      rewrite ?inject_Z_plus; change (inject_Z 1) with 1; lra.
  - apply Qlt_alt in Hc. lra.
  - apply Qgt_alt in Hc. rewrite inject_Z_plus. change (inject_Z 1) with 1. lra.
Qed.

Lemma round_even_ge (x : Q) (z : Z) : inject_Z z <= x -> (z <= round_even x)%Z.
Proof.
  intros Hz. apply Qfloor_resp_le in Hz. rewrite Qfloor_Z in Hz.
  unfold round_even.
  destruct (Qcompare _ _); [destruct (Z.even _)| |]; lia.
Qed.

Lemma round_even_le (x : Q) (z : Z) : x <= inject_Z z -> (round_even x <= z)%Z.
Proof.
  intros Hz. pose proof (Qfloor_le x) as Hlo.
  pose proof (Qfloor_resp_le _ _ Hz) as Hf. rewrite Qfloor_Z in Hf.
  unfold round_even.
  destruct (Qcompare (x - inject_Z (Qfloor x)) (1 # 2)) eqn:Hc.
  - apply Qeq_alt in Hc. destruct (Z.even _); [lia|].
    destruct (Z.eq_dec (Qfloor x) z) as [He|He]; [|lia].
    rewrite He in Hc. lra.
  - lia.
  - apply Qgt_alt in Hc.
    destruct (Z.eq_dec (Qfloor x) z) as [He|He]; [|lia].
    rewrite He in Hc. lra.
Qed.

(** Counted in units in the last place, [x > 0] lies between [2^23] and
    [2^24]. *)
Lemma binary32_pos_scaled (x : Q) :
  0 < x ->
  let ulp := pow2 (ilog2 x - 23) in
  inject_Z (2 ^ 23) <= x / ulp /\ x / ulp < inject_Z (2 ^ 24).
Proof.
  intros Hx ulp. destruct (ilog2_spec x Hx) as [Hlo Hhi].
  pose proof (pow2_pos (ilog2 x - 23)) as Hu. fold ulp in Hu.
  assert (H1 : pow2 (ilog2 x) == inject_Z (2 ^ 23) * ulp).
  { unfold ulp. rewrite <- (pow2_Z 23) by lia. rewrite <- pow2_add.
    replace (23 + (ilog2 x - 23))%Z with (ilog2 x) by lia. reflexivity. }
  assert (H2 : pow2 (ilog2 x + 1) == inject_Z (2 ^ 24) * ulp).
  { unfold ulp. rewrite <- (pow2_Z 24) by lia. rewrite <- pow2_add.
    replace (24 + (ilog2 x - 23))%Z with (ilog2 x + 1)%Z by lia. reflexivity. }
  split.
  - apply Qle_shift_div_l; [exact Hu|]. rewrite <- H1. exact Hlo.
  - apply Qlt_shift_div_r; [exact Hu|]. rewrite <- H2. exact Hhi.
Qed.

(** The result is [m * 2^(e-23)] with a significand [m] of 24 bits, or the
    next power of two. *)
Lemma binary32_pos_significand (x : Q) :
  0 < x -> (2 ^ 23 <= round_even (x / pow2 (ilog2 x - 23)) <= 2 ^ 24)%Z.
Proof.
  intros Hx. destruct (binary32_pos_scaled x Hx) as [Hlo Hhi]. split.
  - apply round_even_ge, Hlo.
  - apply round_even_le, Qlt_le_weak, Hhi.
Qed.

(** Rounding moves [x > 0] by at most half a unit in the last place, which
    is at most [x / 2^24]. *)
Lemma binary32_pos_near (x : Q) :
  0 < x ->
  x - x * (1 # 16777216) <= binary32_pos x <= x + x * (1 # 16777216).
Proof.
  intros Hx. destruct (binary32_pos_scaled x Hx) as [Hlo _].
  pose proof (pow2_pos (ilog2 x - 23)) as Hu.
  unfold binary32_pos.
  set (ulp := pow2 (ilog2 x - 23)) in *.
  pose proof (round_even_near (x / ulp)) as [Hn1 Hn2].
  set (m := inject_Z (round_even (x / ulp))) in *.
  assert (Hq : x / ulp * ulp == x) by (field; lra).
  set (q := x / ulp) in *.
  assert (Ha : (q - (1 # 2)) * ulp <= m * ulp)
    by (apply Qmult_le_compat_r; [exact Hn1|lra]).
  assert (Hb : m * ulp <= (q + (1 # 2)) * ulp)
    by (apply Qmult_le_compat_r; [exact Hn2|lra]).
  assert (Hc : inject_Z (2 ^ 23) * ulp <= q * ulp)
    by (apply Qmult_le_compat_r; [exact Hlo|lra]).
  change (inject_Z (2 ^ 23)) with (8388608 # 1) in Hc.
  lra.
Qed.

Lemma binary32_positive_arg (x : Q) : 0 < x -> binary32 x = binary32_pos x.
Proof.
  destruct x as [[|p|p] d]; unfold Qlt; simpl; intros Hx; [lia|reflexivity|lia].
Qed.

Lemma binary32_positive (x : Q) : 0 < x -> 0 < binary32 x.
Proof.
  intros Hx. rewrite binary32_positive_arg by exact Hx.
  destruct (binary32_pos_near x Hx) as [Hlo _]. lra.
Qed.

Lemma Qopp_opp_eq (x : Q) : - - x = x.
Proof.
  destruct x as [n d]. unfold Qopp. simpl. rewrite Z.opp_involutive. reflexivity.
Qed.

Lemma Qdiv_opp_eq (x y : Q) : (- x) / y = - (x / y).
Proof.
  destruct x as [n d], y as [m e]. unfold Qdiv, Qmult, Qopp. simpl.
  rewrite Z.mul_opp_l. reflexivity.
Qed.

(** Rounding commutes with the change of sign. *)
Lemma binary32_opp (x : Q) : binary32 (- x) = - binary32 x.
Proof.
  destruct x as [[|p|p] d].
  - reflexivity.
  - reflexivity.
  - change (binary32_pos (Z.pos p # d) = - - binary32_pos (Z.pos p # d)).
    symmetry. apply Qopp_opp_eq.
Qed.

Lemma ms_of_ticks_opp (d : Z) : ms_of_ticks (- d) = - ms_of_ticks d.
Proof.
  unfold ms_of_ticks, float_div, float_of_int64.
  change (inject_Z (- d)) with (- inject_Z d).
  rewrite binary32_opp, Qdiv_opp_eq, binary32_opp. reflexivity.
Qed.

(** The two roundings of [ms_of_ticks] move the quotient by less than one
    part in eight million. *)
Lemma ms_of_ticks_positive (d : Z) :
  (0 < d)%Z ->
  0 < ms_of_ticks d /\
  (d # 1000000) - (d # 1000000) * (1 # 8000000) <= ms_of_ticks d /\
  ms_of_ticks d <= (d # 1000000) + (d # 1000000) * (1 # 8000000).
Proof.
  intros Hd. unfold ms_of_ticks, float_div, float_of_int64.
  assert (Hx : 0 < inject_Z d) by (rewrite <- (Zlt_Qlt 0); exact Hd).
  pose proof (binary32_positive _ Hx) as Hf1.
  rewrite (binary32_positive_arg _ Hx) in *.
  destruct (binary32_pos_near _ Hx) as [Ha Hb].
  set (f1 := binary32_pos (inject_Z d)) in *. clearbody f1.
  assert (Hq : 0 < f1 / 1000000) by (apply Qlt_shift_div_l; lra).
  pose proof (binary32_positive _ Hq) as Hf2.
  rewrite (binary32_positive_arg _ Hq) in *.
  destruct (binary32_pos_near _ Hq) as [Hc He].
  set (f2 := binary32_pos (f1 / 1000000)) in *. clearbody f2.
  assert (Hy : d # 1000000 == inject_Z d / 1000000) by apply Qmake_Qdiv.
  rewrite Hy. set (x := inject_Z d) in *.
  change (f1 / 1000000) with (f1 * (1 # 1000000)) in *.
  change (x / 1000000) with (x * (1 # 1000000)).
  split; [exact Hf2|]. split; lra.
Qed.

Lemma ms_of_ticks_near (d : Z) :
  Qabs (ms_of_ticks d - (d # 1000000)) <= Qabs (d # 1000000) * (1 # 8000000).
Proof.
  destruct (Z.lt_trichotomy d 0) as [Hd|[->|Hd]].
  - destruct (ms_of_ticks_positive (- d) ltac:(lia)) as (_ & Ha & Hb).
    rewrite ms_of_ticks_opp in Ha, Hb.
    assert (Hy : (- d # 1000000) == - (d # 1000000)) by reflexivity.
    rewrite Hy in Ha, Hb.
    assert (Hneg : d # 1000000 <= 0) by (unfold Qle; simpl; lia).
    rewrite (Qabs_neg _ Hneg).
    apply Qabs_Qle_condition. split; lra.
  - vm_compute. discriminate.
  - destruct (ms_of_ticks_positive d Hd) as (_ & Ha & Hb).
    assert (Hpos : 0 <= d # 1000000) by (unfold Qle; simpl; lia).
    rewrite (Qabs_pos _ Hpos).
    apply Qabs_Qle_condition. split; lra.
Qed.

(** The value has the sign of the tick count. *)
Lemma ms_of_ticks_negative (d : Z) : (d < 0)%Z <-> ms_of_ticks d < 0.
Proof.
  split.
  - intros Hd. destruct (ms_of_ticks_positive (- d) ltac:(lia)) as (Hp & _).
    rewrite ms_of_ticks_opp in Hp. lra.
  - intros Hm. destruct (Z.lt_trichotomy d 0) as [Hd|[->|Hd]]; [exact Hd| |].
    + vm_compute in Hm. discriminate.
    + destruct (ms_of_ticks_positive d Hd) as (Hp & _). lra.
Qed.

Lemma ms_of_ticks_zero (d : Z) : d = 0%Z <-> ms_of_ticks d == 0.
Proof.
  split.
  - intros ->. reflexivity.
  - intros Hm. destruct (Z.lt_trichotomy d 0) as [Hd|[->|Hd]]; [|reflexivity|].
    + apply ms_of_ticks_negative in Hd. lra.
    + destruct (ms_of_ticks_positive d Hd) as (Hp & _). lra.
Qed.

(** The exponents of the two numbers that [ms_of_ticks] rounds, for a tick
    count of [int64_t], stay far inside the range -126 to 127 of a
    [float]. *)
Lemma ms_of_ticks_exponents (d : Z) :
  (0 < d <= 2 ^ 63)%Z ->
  (0 <= ilog2 (inject_Z d) <= 63)%Z /\
  (-20 <= ilog2 (float_of_int64 d / 1000000) <= 43)%Z.
Proof.
  intros [Hd Hmax]. unfold float_of_int64.
  assert (Hx : 0 < inject_Z d) by (rewrite <- (Zlt_Qlt 0); exact Hd).
  assert (H1 : inject_Z 1 <= inject_Z d) by (rewrite <- Zle_Qle; lia).
  assert (H2 : inject_Z d <= inject_Z (2 ^ 63)) by (rewrite <- Zle_Qle; exact Hmax).
  change (inject_Z 1) with 1 in H1.
  change (inject_Z (2 ^ 63)) with 9223372036854775808 in H2.
  rewrite (binary32_positive_arg _ Hx).
  destruct (binary32_pos_near _ Hx) as [Ha Hb].
  set (x := inject_Z d) in *.
  set (f1 := binary32_pos x) in *. clearbody f1.
  split.
  - cut (0 <= ilog2 x < 64)%Z; [lia|].
    apply ilog2_bounds; [exact Hx| |].
    + change (pow2 0) with 1. exact H1.
    + change (pow2 64) with 18446744073709551616. lra.
  - cut (-20 <= ilog2 (f1 / 1000000) < 44)%Z; [lia|].
    change (f1 / 1000000) with (f1 * (1 # 1000000)).
    apply ilog2_bounds.
    + lra.
    + change (pow2 (-20)) with (1 # 1048576). lra.
    + change (pow2 44) with 17592186044416. lra.
Qed.

Lemma is_float_opp (x : Q) : is_float x -> is_float (- x).
Proof.
  intros (m & e & Hm & He & Hx). exists (- m)%Z, e.
  split; [lia|]. split; [exact He|].
  rewrite Hx, inject_Z_opp. ring.
Qed.

(** What [ms_of_ticks] returns for a tick count of [int64_t] is a
    [float]. *)
Lemma ms_of_ticks_float (d : Z) :
  (- 2 ^ 63 <= d < 2 ^ 63)%Z -> is_float (ms_of_ticks d).
Proof.
  assert (Hpos : forall d', (0 < d' <= 2 ^ 63)%Z -> is_float (ms_of_ticks d')).
  { intros d' Hd'. destruct (ms_of_ticks_exponents d' Hd') as [_ He].
    unfold ms_of_ticks, float_div.
    assert (Hq : 0 < float_of_int64 d' / 1000000).
    { apply Qlt_shift_div_l; [reflexivity|]. rewrite Qmult_0_l.
      apply binary32_positive. rewrite <- (Zlt_Qlt 0). lia. }
    rewrite (binary32_positive_arg _ Hq). unfold binary32_pos.
    pose proof (binary32_pos_significand _ Hq) as Hm.
    eexists _, _. split; [|split; [|reflexivity]]; lia. }
  intros Hd. destruct (Z.lt_trichotomy d 0) as [Hneg|[->|Hp]].
  - replace d with (- - d)%Z by lia. rewrite ms_of_ticks_opp.
    apply is_float_opp, Hpos. lia.
  - exists 0%Z, 0%Z. split; [lia|]. split; [lia|reflexivity].
  - apply Hpos. lia.
Qed.

(** [2^24 + 1] ticks: the conversion to [float] falls halfway between
    [2^24] and [2^24 + 2] and goes to [2^24]; the quotient 16.777216 goes
    to the nearest [float], 8796093 / 2^19. *)
Example ms_of_ticks_rounds :
  float_of_int64 16777217 = 16777216 /\
  ms_of_ticks 16777217 = 8796093 # 524288 /\
  ~ ms_of_ticks 16777217 == 16777217 # 1000000.
Proof. split; [|split]; [vm_compute; reflexivity ..|vm_compute; discriminate]. Qed.

End binary32.

(** The value of lines 94, 103 and 110, for the tick count [ticks] that
    the 64-bit subtraction leaves: a [float], within one part in eight
    million of the quotient. *)
Lemma elapsed_value (x y : Z) :
  let ticks := to_int64 (sub64 x y) in
  let value := binary32 (binary32 (inject_Z ticks) / 1000000) in
  is_float value
  /\ (Qabs (value - (ticks # 1000000)) <= Qabs (ticks # 1000000) * (1 # 8000000))%Q
  /\ (- 2 ^ 63 <= x - y < 2 ^ 63 -> ticks = x - y).
Proof.
  cbv zeta. split; [|split].
  - apply ms_of_ticks_float, to_int64_sub64_range.
  - apply ms_of_ticks_near.
  - apply to_int64_sub64.
Qed.

(** ** Running a program *)

Section engine.
Context `{HipConstants} {W : Type} (E : Engine W).

Lemma exec_bind {A B : Type} (p : Prog A) (f : A -> Prog B) (w : W) :
  exec E (bind p f) w =
  let x := exec E p w in
  let y := exec E (f x.1.1) x.1.2 in (y.1.1, y.1.2, x.2 ++ y.2).
Proof.
  revert w. induction p as [a|o k IH|a k IH|l k IH|l k IH]; intros w; simpl.
  - destruct (exec E (f a) w) as [[b w1] t]. reflexivity.
  - apply IH.
  - rewrite IH. reflexivity.
  - rewrite IH. reflexivity.
  - rewrite IH. reflexivity.
Qed.

Lemma exec_bind_eq {A B : Type} (p : Prog A) (f : A -> Prog B) (w w1 w2 : W)
    (a : A) (b : B) (t1 t2 : list Step) :
  exec E p w = (a, w1, t1) -> exec E (f a) w1 = (b, w2, t2) ->
  exec E (bind p f) w = (b, w2, t1 ++ t2).
Proof. intros Hp Hf. rewrite exec_bind, Hp. simpl. rewrite Hf. reflexivity. Qed.

Lemma exec_ScopedLock {A : Type} (l : Z) (p : Prog A) (w w1 : W) (a : A)
    (t : list Step) :
  exec E p w = (a, w1, t) ->
  exec E (ScopedLock l p) w = (a, w1, Locked l :: t ++ [Unlocked l]).
Proof.
  intros Hp. unfold ScopedLock. simpl.
  rewrite (exec_bind_eq p _ w w1 w1 a a t [Unlocked l]); [reflexivity|exact Hp|].
  reflexivity.
Qed.

(** [ready()] calls the engine at most once, to nudge the queue. *)
Lemma ready_exec (self : Event) (w : W) :
  exec E (Event_ready self) w =
  if observe E (Status (event_ self)) w =? CL_COMPLETE
  then (true, w, [])
  else
    let rw := perform E (NotifyCmdQueue (event_ self)) w in
    (observe E (Status (event_ self)) rw.2 =? CL_COMPLETE, rw.2,
     [Did (NotifyCmdQueue (event_ self))]).
Proof.
  unfold Event_ready. simpl.
  destruct (Z.eqb_spec (observe E (Status (event_ self)) w) CL_COMPLETE) as [Hc|Hc];
    simpl.
  - rewrite Hc, Z.eqb_refl. reflexivity.
  - reflexivity.
Qed.

Lemma ready_trace (self : Event) (w : W) :
  Forall (fun s => waits s = false /\ is_new_marker s = false)
    (trace (exec E (Event_ready self) w)).
Proof.
  rewrite ready_exec.
  destruct (observe E (Status (event_ self)) w =? CL_COMPLETE); simpl.
  - constructor.
  - repeat constructor.
Qed.

(** A schedule that runs is a run of the threads. *)
Lemma run_schedule_rtc {R : Type} (s : list nat) (c c' : Conf W R) :
  run_schedule E s c = Some c' -> rtc (step E) c c'.
Proof.
  revert c. induction s as [|i s IH]; intros c; simpl.
  - intros [= ->]. apply rtc_refl.
  - destruct (thread_step E i c) as [c1|] eqn:Hs; [|discriminate].
    intros Hr. eapply rtc_l; [exists i; exact Hs|]. apply IH, Hr.
Qed.

(** A thread at the constructor of a [ScopedLock] moves exactly when the
    monitor is free. *)
Lemma thread_step_acquire {R : Type} (i : nat) (c : Conf W R) (l : Z) (k : Prog R) :
  c_threads c !! i = Some (Acquire l k) ->
  thread_step E i c =
    match c_owner c !! l with
    | Some _ => None
    | None => Some {| c_world := c_world c; c_owner := <[l := i]> (c_owner c);
                      c_threads := <[i := k]> (c_threads c) |}
    end.
Proof. intros Hp. unfold thread_step. rewrite Hp. reflexivity. Qed.

End engine.

(** ** Every path of a method *)

Section paths.
Context `{HipConstants} {W : Type} (E : Engine W).

Lemma all_paths_exec {A : Type} (p : Prog A) (Q : A -> list Step -> Prop) (w : W) :
  all_paths p Q -> Q (result (exec E p w)) (trace (exec E p w)).
Proof.
  revert Q w. induction p as [a|o k IH|a k IH|l k IH|l k IH]; intros Q w Hp; simpl in Hp.
  - exact Hp.
  - simpl. apply IH, Hp.
  - apply (IH _ _ (perform E a w).2 (Hp (perform E a w).1)).
  - apply (IH _ w Hp).
  - apply (IH _ w Hp).
Qed.

End paths.

(** The paths of a method, one goal for each. *)
Ltac split_paths :=
  repeat (simpl; intros;
          try match goal with
              | |- context [if ?b then _ else _] => destruct b eqn:?
              end).

(** ** Elapsed time *)

Section elapsedTime.
Context `{HipConstants} {W : Type} (E : Engine W).

(** Two distinct events that pass the checks reach the measurement, under
    both monitors, [this] taken first. *)
Lemma elapsedTime_validated (this eStop : Z) (self stop : Event) (ms : Q)
    (w w' w'' : W) (t t' : list Step) (r : hipError_t * Q) :
  this <> eStop ->
  validated E self stop w w' t ->
  exec E (elapsedTime_measure self stop) w' = (r, w'', t') ->
  exec E (Event_elapsedTime this self eStop stop ms) w =
    (r, w'', Locked this :: Locked eStop :: t ++ t' ++ [Unlocked eStop; Unlocked this]).
Proof.
  intros Hne (Ha & Hb & Hta & Htb & w1 & t1 & t2 & Hr1 & Hr2 & ->) Hm.
  unfold Event_elapsedTime.
  rewrite (proj2 (Z.eqb_neq this eStop) Hne).
  rewrite (proj2 (Z.eqb_neq _ _) Ha), (proj2 (Z.eqb_neq _ _) Hb). simpl orb. cbv iota.
  rewrite truthy_land_lor.
  unfold timingDisabled in Hta, Htb. rewrite Hta, Htb. simpl orb. cbv iota.
  rewrite (exec_ScopedLock E this _ w w'' r
             (Locked eStop :: (t1 ++ t2) ++ t' ++ [Unlocked eStop])).
  - simpl. rewrite <- !app_assoc. reflexivity.
  - rewrite (exec_ScopedLock E eStop _ w w'' r ((t1 ++ t2) ++ t')).
    + rewrite <- !app_assoc. reflexivity.
    + rewrite <- app_assoc.
      eapply exec_bind_eq; [exact Hr1|]. simpl negb. cbv iota.
      eapply exec_bind_eq; [exact Hr2|]. simpl negb. cbv iota. exact Hm.
Qed.

Lemma validated_trace (self stop : Event) (w w' : W) (t : list Step) :
  validated E self stop w w' t ->
  Forall (fun s => waits s = false /\ is_new_marker s = false) t.
Proof.
  intros (_ & _ & _ & _ & w1 & t1 & t2 & Hr1 & Hr2 & ->).
  apply Forall_app. split.
  - pose proof (ready_trace E self w) as Ht. rewrite Hr1 in Ht. exact Ht.
  - pose proof (ready_trace E stop w1) as Ht. rewrite Hr2 in Ht. exact Ht.
Qed.

(** C1.  Two distinct events pass the checks of [elapsedTime], their handles
    differ and both were recorded: the call returns [hipSuccess] and a value
    computed from [ticks], the 64-bit difference of the stop handle's and
    the start handle's end time stamps read as [int64_t]; the engine is left
    as the two [ready()] left it.  The value is [ticks] converted to [float]
    and divided by one million in [float]: it is a [float], and it is the
    quotient [ticks / 1000000] to within one part in eight million of it.
    When the difference of the time stamps fits [int64_t], [ticks] is that
    difference. *)
Theorem elapsedTime_recorded_distinct_handles (this eStop : Z) (self stop : Event)
    (ms : Q) (w w' : W) (t : list Step) :
  this <> eStop ->
  validated E self stop w w' t ->
  event_ self <> event_ stop ->
  recorded_ self = true ->
  recorded_ stop = true ->
  let stop_end := end_ (observe E (ProfilingInfo (event_ stop)) w') in
  let start_end := end_ (observe E (ProfilingInfo (event_ self)) w') in
  let ticks := to_int64 (sub64 stop_end start_end) in
  let value := binary32 (binary32 (inject_Z ticks) / 1000000) in
  exec E (Event_elapsedTime this self eStop stop ms) w =
    (hipSuccess, value, w',
     Locked this :: Locked eStop :: t ++ [Unlocked eStop; Unlocked this])
  /\ is_float value
  /\ (Qabs (value - (ticks # 1000000)) <= Qabs (ticks # 1000000) * (1 # 8000000))%Q
  /\ (- 2 ^ 63 <= stop_end - start_end < 2 ^ 63 -> ticks = stop_end - start_end).
Proof.
  intros Hne Hv Hh Hra Hrb stop_end start_end ticks value.
  split; [|exact (elapsed_value stop_end start_end)].
  rewrite (elapsedTime_validated this eStop self stop ms w w' w' t []
             (hipSuccess, value) Hne Hv).
  - reflexivity.
  - unfold elapsedTime_measure.
    rewrite (proj2 (Z.eqb_neq _ _) Hh), Hra, Hrb. reflexivity.
Qed.

(** C2.  Two distinct events pass the checks, share one handle, and at
    least one was recorded: [elapsedTime] creates a marker on the queue of
    the shared handle, enqueues it, waits for it, reads the end time stamps
    of the marker and of the start handle, releases the marker, and returns
    [hipSuccess] with a value computed from [ticks], the 64-bit difference
    of the marker's and the start handle's end time stamps read as
    [int64_t].  The value is [ticks] converted to [float] and divided by one
    million in [float]: it is a [float], and it is the quotient
    [ticks / 1000000] to within one part in eight million of it.  When the
    difference of the time stamps fits [int64_t], [ticks] is that
    difference. *)
Theorem elapsedTime_same_handle_recorded (this eStop : Z) (self stop : Event)
    (ms : Q) (w w' : W) (t : list Step) :
  this <> eStop ->
  validated E self stop w w' t ->
  event_ self = event_ stop ->
  recorded_ self || recorded_ stop = true ->
  let q := observe E (CommandQueue (event_ self)) w' in
  let m := perform E (NewMarker q kMarkerDisableFlush []) w' in
  let w1 := (perform E (Enqueue m.1) m.2).2 in
  let w2 := (perform E (CommandAwaitCompletion m.1) w1).2 in
  let marker_end :=
    end_ (observe E (ProfilingInfo (observe E (CommandEvent m.1) w2)) w2) in
  let start_end := end_ (observe E (ProfilingInfo (event_ self)) w2) in
  let w3 := (perform E (ReleaseCommand m.1) w2).2 in
  let ticks := to_int64 (sub64 marker_end start_end) in
  let value := binary32 (binary32 (inject_Z ticks) / 1000000) in
  exec E (Event_elapsedTime this self eStop stop ms) w =
    (hipSuccess, value, w3,
     Locked this :: Locked eStop :: t ++
       [Did (NewMarker q kMarkerDisableFlush []); Did (Enqueue m.1);
        Did (CommandAwaitCompletion m.1); Did (ReleaseCommand m.1);
        Unlocked eStop; Unlocked this])
  /\ is_float value
  /\ (Qabs (value - (ticks # 1000000)) <= Qabs (ticks # 1000000) * (1 # 8000000))%Q
  /\ (- 2 ^ 63 <= marker_end - start_end < 2 ^ 63 -> ticks = marker_end - start_end).
Proof.
  intros Hne Hv Hh Hrec q m w1 w2 marker_end start_end w3 ticks value.
  split; [|exact (elapsed_value marker_end start_end)].
  rewrite (elapsedTime_validated this eStop self stop ms w w' w3 t
             [Did (NewMarker q kMarkerDisableFlush []); Did (Enqueue m.1);
              Did (CommandAwaitCompletion m.1); Did (ReleaseCommand m.1)]
             (hipSuccess, value) Hne Hv).
  - reflexivity.
  - unfold elapsedTime_measure.
    rewrite <- Hh, Z.eqb_refl, Hrec. reflexivity.
Qed.

(** C9.  Two distinct events pass the checks, share one handle, and neither
    was recorded: [elapsedTime] creates no marker, calls the engine no
    further, and returns [hipSuccess] with a value computed from [ticks],
    the 64-bit difference of the shared handle's end and start time stamps
    read as [int64_t].  The value is [ticks] converted to [float] and
    divided by one million in [float]: it is a [float], and it is the
    quotient [ticks / 1000000] to within one part in eight million of it.
    When the difference of the time stamps fits [int64_t], [ticks] is that
    difference. *)
Theorem elapsedTime_same_handle_unrecorded (this eStop : Z) (self stop : Event)
    (ms : Q) (w w' : W) (t : list Step) :
  this <> eStop ->
  validated E self stop w w' t ->
  event_ self = event_ stop ->
  recorded_ self = false ->
  recorded_ stop = false ->
  let info := observe E (ProfilingInfo (event_ self)) w' in
  let ticks := to_int64 (sub64 (end_ info) (start_ info)) in
  let value := binary32 (binary32 (inject_Z ticks) / 1000000) in
  exec E (Event_elapsedTime this self eStop stop ms) w =
    (hipSuccess, value, w',
     Locked this :: Locked eStop :: t ++ [Unlocked eStop; Unlocked this])
  /\ Forall (fun s => is_new_marker s = false)
       (trace (exec E (Event_elapsedTime this self eStop stop ms) w))
  /\ is_float value
  /\ (Qabs (value - (ticks # 1000000)) <= Qabs (ticks # 1000000) * (1 # 8000000))%Q
  /\ (- 2 ^ 63 <= end_ info - start_ info < 2 ^ 63 ->
      ticks = end_ info - start_ info).
Proof.
  intros Hne Hv Hh Hra Hrb info ticks value.
  assert (Hx : exec E (Event_elapsedTime this self eStop stop ms) w =
    (hipSuccess, value, w',
     Locked this :: Locked eStop :: t ++ [Unlocked eStop; Unlocked this])).
  { rewrite (elapsedTime_validated this eStop self stop ms w w' w' t []
               (hipSuccess, value) Hne Hv).
    - reflexivity.
    - unfold elapsedTime_measure, info.
      rewrite <- Hh, Z.eqb_refl, Hra, Hrb. reflexivity. }
  split; [exact Hx|]. split; [|exact (elapsed_value (end_ info) (start_ info))].
  rewrite Hx. unfold trace. simpl.
  repeat constructor.
  apply Forall_app. split; [|repeat constructor].
  eapply Forall_impl; [exact (validated_trace _ _ _ _ _ Hv)|].
  intros s [_ Hs]. exact Hs.
Qed.

(** C3.  On two distinct events [elapsedTime] returns
    [hipErrorInvalidHandle] when either handle is null or either event has
    timing disabled; the engine is not consulted, so this holds whatever the
    readiness of the events.  When those checks pass and [ready()] is false
    on the start event, or true on it and false on the stop event, the call
    returns [hipErrorNotReady] and leaves [ms] as it was. *)
Theorem elapsedTime_validation (this eStop : Z) (self stop : Event) (ms : Q) (w : W) :
  this <> eStop ->
  (event_ self = nullptr \/ event_ stop = nullptr \/
   timingDisabled self = true \/ timingDisabled stop = true ->
   exec E (Event_elapsedTime this self eStop stop ms) w =
     (hipErrorInvalidHandle, ms, w,
      [Locked this; Locked eStop; Unlocked eStop; Unlocked this]))
  /\ (event_ self <> nullptr -> event_ stop <> nullptr ->
      timingDisabled self = false -> timingDisabled stop = false ->
      forall (r1 r2 : bool) (w1 w2 : W) (t1 t2 : list Step),
        exec E (Event_ready self) w = (r1, w1, t1) ->
        exec E (Event_ready stop) w1 = (r2, w2, t2) ->
        r1 && r2 = false ->
        result (exec E (Event_elapsedTime this self eStop stop ms) w) =
          (hipErrorNotReady, ms)).
Proof.
  intros Hne. unfold Event_elapsedTime.
  rewrite (proj2 (Z.eqb_neq this eStop) Hne), truthy_land_lor.
  fold (timingDisabled self). fold (timingDisabled stop).
  split.
  - intros Hbad.
    assert (Hc : (event_ self =? 0) || (event_ stop =? 0) = true \/
                 ((event_ self =? 0) || (event_ stop =? 0) = false /\
                  timingDisabled self || timingDisabled stop = true)).
    { destruct (Z.eqb_spec (event_ self) 0), (Z.eqb_spec (event_ stop) 0);
        simpl; try tauto.
      right. split; [reflexivity|].
      destruct Hbad as [?|[?|[->| ->]]]; try done.
      apply orb_true_r. }
    destruct Hc as [-> | [-> ->]]; reflexivity.
  - intros Ha Hb Hta Htb r1 r2 w1 w2 t1 t2 Hr1 Hr2 Hr.
    rewrite (proj2 (Z.eqb_neq _ _) Ha), (proj2 (Z.eqb_neq _ _) Hb), Hta, Htb.
    simpl orb. cbv iota.
    destruct r1.
    + simpl in Hr. subst r2.
      rewrite (exec_ScopedLock E this _ w w2 (hipErrorNotReady, ms)
                 (Locked eStop :: (t1 ++ t2) ++ [Unlocked eStop])); [reflexivity|].
      apply exec_ScopedLock.
      eapply exec_bind_eq; [exact Hr1|]. simpl negb. cbv iota.
      rewrite <- (app_nil_r t2).
      eapply exec_bind_eq; [exact Hr2|]. reflexivity.
    + rewrite (exec_ScopedLock E this _ w w1 (hipErrorNotReady, ms)
                 (Locked eStop :: t1 ++ [Unlocked eStop])); [reflexivity|].
      apply exec_ScopedLock.
      rewrite <- (app_nil_r t1).
      eapply exec_bind_eq; [exact Hr1|]. reflexivity.
Qed.

(** C4.  [elapsedTime] of an event with itself returns
    [hipErrorInvalidHandle] when the handle is null or timing is disabled,
    without a call to the engine; otherwise it returns [hipErrorNotReady]
    with [ms] untouched when [ready()] is false, and [hipSuccess] with the
    value 0 when it is true.  Only the event's own monitor is taken. *)
Theorem elapsedTime_self (this : Z) (self : Event) (ms : Q) (w : W) :
  (event_ self = nullptr \/ timingDisabled self = true ->
   exec E (Event_elapsedTime this self this self ms) w =
     (hipErrorInvalidHandle, ms, w, [Locked this; Unlocked this]))
  /\ (event_ self <> nullptr -> timingDisabled self = false ->
      forall (r : bool) (w1 : W) (t1 : list Step),
        exec E (Event_ready self) w = (r, w1, t1) ->
        exec E (Event_elapsedTime this self this self ms) w =
          (if r then (hipSuccess, 0%Q) else (hipErrorNotReady, ms), w1,
           Locked this :: t1 ++ [Unlocked this])).
Proof.
  unfold Event_elapsedTime. rewrite Z.eqb_refl.
  fold (timingDisabled self). split.
  - intros [Hn|Ht].
    + rewrite Hn. reflexivity.
    + rewrite Ht. destruct (event_ self =? 0); reflexivity.
  - intros Ha Ht r w1 t1 Hr.
    rewrite (proj2 (Z.eqb_neq _ _) Ha), Ht.
    apply exec_ScopedLock.
    rewrite <- (app_nil_r t1).
    eapply exec_bind_eq; [exact Hr|].
    destruct r; reflexivity.
Qed.

End elapsedTime.

(** ** Creation *)

Section create.
Context `{HipConstants}.

Lemma not32_spec (x i : Z) :
  0 <= i -> Z.testbit (not32 x) i = (i <? 32) && negb (Z.testbit x i).
Proof.
  intros Hi. unfold not32.
  destruct (Z.ltb_spec i 32) as [Hlt|Hge]; simpl.
  - rewrite Z.mod_pow2_bits_low by exact Hlt. apply Z.lnot_spec. exact Hi.
  - apply Z.mod_pow2_bits_high. lia.
Qed.

Lemma unsigned_high_bits (x i : Z) :
  0 <= x < 2 ^ 32 -> 32 <= i -> Z.testbit x i = false.
Proof.
  intros Hx Hi. rewrite <- (Z.mod_small x (2 ^ 32)) by exact Hx.
  apply Z.mod_pow2_bits_high. lia.
Qed.

Lemma nonneg_nonzero_bit (x : Z) :
  0 <= x -> x <> 0 -> exists i, 0 <= i /\ Z.testbit x i = true.
Proof.
  intros Hx Hne. exists (Z.log2 x). split.
  - apply Z.log2_nonneg.
  - apply Z.bit_log2. lia.
Qed.

Lemma bit_nonzero (x i : Z) : Z.testbit x i = true -> x <> 0.
Proof. intros Hb ->. rewrite Z.bits_0 in Hb. discriminate. Qed.

(** The mask test of line 184 finds exactly the bits that no recognised
    flag has. *)
Lemma unsupported_bit_test (flags : Z) :
  0 <= flags < 2 ^ 32 ->
  truthy (Z.land flags
            (not32 (Z.lor (Z.lor (Z.lor (Z.lor hipEventDefault hipEventBlockingSync)
                                    hipEventDisableTiming) hipEventReleaseToDevice)
                      hipEventReleaseToSystem))) = true
  <-> unsupported_bit flags.
Proof.
  intros Hf. rewrite truthy_true. split.
  - intros Hne.
    destruct (nonneg_nonzero_bit _ (proj2 (Z.land_nonneg _ _) (or_introl (proj1 Hf))) Hne)
      as (i & Hi & Hb).
    rewrite Z.land_spec, not32_spec in Hb by exact Hi.
    apply andb_true_iff in Hb as [Hfi Hb].
    apply andb_true_iff in Hb as [_ Hb].
    apply negb_true_iff in Hb.
    rewrite !Z.lor_spec, !orb_false_iff in Hb.
    exists i. tauto.
  - intros (i & Hi & Hfi & H0 & H1 & H2 & H3 & H4).
    apply (bit_nonzero _ i).
    rewrite Z.land_spec, not32_spec by exact Hi.
    rewrite Hfi, !Z.lor_spec, H0, H1, H2, H3, H4. simpl.
    destruct (Z.ltb_spec i 32) as [Hlt|Hge]; [reflexivity|].
    rewrite (unsigned_high_bits flags i Hf Hge) in Hfi. discriminate.
Qed.

(** The test of line 185 holds exactly when both release flags are in. *)
Lemma both_release_test (flags : Z) :
  (Z.land flags (Z.lor hipEventReleaseToDevice hipEventReleaseToSystem)
     =? Z.lor hipEventReleaseToDevice hipEventReleaseToSystem) = true
  <-> both_release flags.
Proof.
  rewrite Z.eqb_eq. unfold both_release. split.
  - intros Heq. split; apply Z.bits_inj'; intros i Hi.
    + pose proof (f_equal (fun z => Z.testbit z i) Heq) as Hb. simpl in Hb.
      rewrite Z.land_spec, Z.lor_spec in Hb. rewrite Z.land_spec.
      destruct (Z.testbit flags i), (Z.testbit hipEventReleaseToDevice i); done.
    + pose proof (f_equal (fun z => Z.testbit z i) Heq) as Hb. simpl in Hb.
      rewrite Z.land_spec, Z.lor_spec in Hb. rewrite Z.land_spec.
      destruct (Z.testbit flags i), (Z.testbit hipEventReleaseToDevice i),
        (Z.testbit hipEventReleaseToSystem i); done.
  - intros [Hd Hs]. rewrite Z.land_lor_distr_r, Hd, Hs. reflexivity.
Qed.

(** C5.  For a 32-bit [flags]: with a null output slot [create] returns
    [hipErrorInvalidValue]; with a slot it returns [hipErrorInvalidValue]
    exactly when [flags] has a bit outside the five recognised flags or
    holds both release flags; and when neither is the case and the
    allocation gives an object, it returns [hipSuccess], the slot holds the
    new object, and the object carries [flags], a null handle and
    [recorded_ = false]. *)
Theorem create_validates_flags (heap : gmap Z Event) (old flags newp : Z) :
  0 <= flags < 2 ^ 32 ->
  ihipEventCreateWithFlags heap None flags newp = (hipErrorInvalidValue, heap, None)
  /\ ((ihipEventCreateWithFlags heap (Some old) flags newp).1.1 = hipErrorInvalidValue
      <-> unsupported_bit flags \/ both_release flags)
  /\ (~ (unsupported_bit flags \/ both_release flags) -> newp <> nullptr ->
      ihipEventCreateWithFlags heap (Some old) flags newp =
        (hipSuccess, <[newp := Event_new flags]> heap, Some newp)
      /\ (<[newp := Event_new flags]> heap) !! newp =
           Some {| flags := flags; event_ := nullptr; recorded_ := false |}).
Proof.
  intros Hf. split; [reflexivity|].
  pose proof (unsupported_bit_test flags Hf) as Hu.
  pose proof (both_release_test flags) as Hb.
  unfold ihipEventCreateWithFlags. cbv zeta.
  destruct (truthy _) eqn:Ht; simpl.
  - split; [split; [intros _; left; apply Hu; reflexivity | reflexivity]|].
    intros Hn. exfalso. apply Hn. left. apply Hu. reflexivity.
  - destruct (Z.eqb _ _) eqn:Hr; simpl.
    + split; [split; [intros _; right; apply Hb; reflexivity | reflexivity]|].
      intros Hn. exfalso. apply Hn. right. apply Hb. reflexivity.
    + assert (Hlegal : ~ (unsupported_bit flags \/ both_release flags)).
      { intros [Hx|Hx]; [apply Hu in Hx | apply Hb in Hx]; discriminate. }
      split.
      * split; [|tauto]. destruct (newp =? 0); discriminate.
      * intros _ Hp. rewrite (proj2 (Z.eqb_neq _ _) Hp).
        split; [reflexivity|]. apply lookup_insert_eq.
Qed.

End create.

(** ** Query, synchronize, stream wait, record *)

Section waiting.
Context `{HipConstants} {W : Type} (E : Engine W).

Lemma query_exec (this : Z) (self : Event) (w : W) :
  event_ self <> nullptr ->
  exec E (Event_query this self) w =
    let r := exec E (Event_ready self) w in
    (if r.1.1 then hipSuccess else hipErrorNotReady, r.1.2,
     Locked this :: r.2 ++ [Unlocked this]).
Proof.
  intros Hh. unfold Event_query. rewrite (proj2 (Z.eqb_neq _ _) Hh).
  destruct (exec E (Event_ready self) w) as [[r w1] t] eqn:Hr. simpl.
  apply exec_ScopedLock. rewrite <- (app_nil_r t).
  eapply exec_bind_eq; [exact Hr|]. reflexivity.
Qed.

Lemma synchronize_exec (this : Z) (self : Event) (w : W) :
  event_ self <> nullptr ->
  exec E (Event_synchronize this self) w =
    (hipSuccess, (perform E (AwaitCompletion (event_ self)) w).2,
     [Locked this; Did (AwaitCompletion (event_ self)); Unlocked this]).
Proof.
  intros Hh. unfold Event_synchronize. rewrite (proj2 (Z.eqb_neq _ _) Hh).
  reflexivity.
Qed.

(** C6, as the code has it.  An event whose handle is null: [query] and
    [synchronize] return [hipSuccess] without any call to the engine,
    whatever the engine and its state.  [query] makes no call that waits
    for the device and takes no monitor but the event's own; it begins by
    taking that monitor, so that a thread at the start of [query] cannot
    move exactly while another call holds it.  On an engine whose
    [awaitCompletion] returns with the handle complete, [synchronize]
    called again takes the monitor again and calls [awaitCompletion] once
    more, on the handle that is complete by then, and returns
    [hipSuccess]. *)
Theorem query_synchronize (this : Z) (self : Event) (w : W) :
  (event_ self = nullptr ->
   exec E (Event_query this self) w = (hipSuccess, w, [Locked this; Unlocked this]) /\
   exec E (Event_synchronize this self) w = (hipSuccess, w, [Locked this; Unlocked this]))
  /\ Forall (fun s => waits s = false /\ other_monitor this s = false)
       (trace (exec E (Event_query this self) w))
  /\ (forall (c : Conf W hipError_t) (i : nat),
        c_threads c !! i = Some (Event_query this self) ->
        (thread_step E i c = None <-> is_Some (c_owner c !! this)))
  /\ (event_ self <> nullptr ->
      (forall h w0,
         observe E (Status h) (perform E (AwaitCompletion h) w0).2 = CL_COMPLETE) ->
      let once := exec E (Event_synchronize this self) w in
      result once = hipSuccess /\
      observe E (Status (event_ self)) (final once) = CL_COMPLETE /\
      exec E (Event_synchronize this self) (final once) =
        (hipSuccess, (perform E (AwaitCompletion (event_ self)) (final once)).2,
         [Locked this; Did (AwaitCompletion (event_ self)); Unlocked this])).
Proof.
  split; [|split; [|split]].
  - intros Hn. unfold Event_query, Event_synchronize. rewrite Hn. split; reflexivity.
  - rewrite Forall_forall. intros s Hs. split.
    + revert s Hs. rewrite <- Forall_forall.
      destruct (Z.eq_dec (event_ self) 0) as [Hn|Hh].
      * unfold Event_query. rewrite Hn. repeat constructor.
      * rewrite query_exec by exact Hh. unfold trace. simpl.
        constructor; [reflexivity|]. apply Forall_app. split; [|repeat constructor].
        eapply Forall_impl; [apply ready_trace|]. intros s [Hs _]. exact Hs.
    + revert s Hs. rewrite <- Forall_forall.
      apply (all_paths_exec E (Event_query this self)
               (fun _ t => Forall (fun s => other_monitor this s = false) t)).
      unfold Event_query, ScopedLock, Event_ready.
      split_paths; repeat constructor; simpl; rewrite Z.eqb_refl; reflexivity.
  - intros c i Hi.
    rewrite (thread_step_acquire E i c this
               (let* r := (if event_ self =? 0 then Ret hipSuccess
                           else let* r := Event_ready self in
                                Ret (if r then hipSuccess else hipErrorNotReady)) in
                Release this (Ret r))) by exact Hi.
    destruct (c_owner c !! this) as [o|]; split; intros Hx;
      [eexists; reflexivity|reflexivity|discriminate|destruct Hx; discriminate].
  - intros Hh Hdone. cbv zeta.
    rewrite !synchronize_exec by exact Hh. unfold result, final. simpl.
    split; [reflexivity|]. split; [apply Hdone|reflexivity].
Qed.

(** C7, as the code has it.  [streamWait] returns [hipSuccess] without any
    call that changes the engine, and without taking a monitor, when the
    handle is null or its command sits on the target queue.  Otherwise it
    takes the event's monitor and nudges the handle's queue: when the nudge
    fails it returns [hipErrorLaunchOutOfResources]; when it succeeds and
    the marker is allocated, it creates on the target queue a marker whose
    wait list is the handle alone, enqueues it, drops its own reference and
    returns [hipSuccess].  No call on any path waits for the device, and
    the only monitor taken is the event's own: that monitor is what
    [streamWait] can wait for. *)
Theorem streamWait_cases (this : Z) (self : Event) (hostQueue flags' : Z) (w : W) :
  (event_ self = nullptr \/ observe E (CommandQueue (event_ self)) w = hostQueue ->
   exec E (Event_streamWait this self hostQueue flags') w = (hipSuccess, w, []))
  /\ (event_ self <> nullptr ->
      observe E (CommandQueue (event_ self)) w <> hostQueue ->
      let n := perform E (NotifyCmdQueue (event_ self)) w in
      (n.1 = false ->
       exec E (Event_streamWait this self hostQueue flags') w =
         (hipErrorLaunchOutOfResources, n.2,
          [Locked this; Did (NotifyCmdQueue (event_ self)); Unlocked this]))
      /\ (n.1 = true ->
          let m := perform E (NewMarker hostQueue kMarkerDisableFlush [event_ self]) n.2 in
          m.1 <> nullptr ->
          exec E (Event_streamWait this self hostQueue flags') w =
            (hipSuccess,
             (perform E (ReleaseCommand m.1) (perform E (Enqueue m.1) m.2).2).2,
             [Locked this; Did (NotifyCmdQueue (event_ self));
              Did (NewMarker hostQueue kMarkerDisableFlush [event_ self]);
              Did (Enqueue m.1); Did (ReleaseCommand m.1); Unlocked this])))
  /\ Forall (fun s => waits s = false /\ other_monitor this s = false)
       (trace (exec E (Event_streamWait this self hostQueue flags') w)).
Proof.
  unfold Event_streamWait. split; [|split].
  - intros [Hn|Hq].
    + rewrite Hn. reflexivity.
    + destruct (event_ self =? 0); [reflexivity|]. simpl.
      rewrite Hq, Z.eqb_refl. reflexivity.
  - intros Hh Hq. rewrite (proj2 (Z.eqb_neq _ _) Hh). simpl.
    rewrite (proj2 (Z.eqb_neq _ _) Hq). simpl. split.
    + intros Hf. rewrite Hf. reflexivity.
    + intros Ht Hm. rewrite Ht. simpl.
      rewrite (proj2 (Z.eqb_neq _ _) Hm). reflexivity.
  - destruct (event_ self =? 0); [constructor|]. simpl.
    destruct (_ =? hostQueue); [constructor|]. simpl.
    destruct (perform E (NotifyCmdQueue (event_ self)) w) as [[|] w1]; simpl;
      [|repeat constructor; simpl; rewrite Z.eqb_refl; reflexivity].
    destruct (perform E (NewMarker hostQueue kMarkerDisableFlush [event_ self]) w1)
      as [c w2]; simpl.
    destruct (c =? 0); simpl; repeat constructor; simpl; rewrite Z.eqb_refl;
      reflexivity.
Qed.

End waiting.

(** ** Record *)

Section record.
Context `{HipConstants} {W : Type} (E : Engine W).

(** A command handed in by the caller whose handle the event already
    holds: nothing happens. *)
Lemma addMarker_same_command_given (this : Z) (self : Event) (queue command : Z)
    (record : bool) (w : W) :
  command <> nullptr ->
  observe E (CommandEvent command) w = event_ self ->
  exec E (Event_addMarker this self queue command record) w =
    (self, w, [Locked this; Unlocked this]).
Proof.
  intros Hc He. unfold Event_addMarker, addMarker_command. simpl.
  rewrite (proj2 (Z.eqb_neq _ _) Hc).
  destruct (observe E (ProfilingEnabled queue) w); simpl;
    rewrite He, Z.eqb_refl; reflexivity.
Qed.

(** No command handed in, a timing-enabled queue whose last command is user
    visible and is the one the event already holds: the look-up with
    [retain = true] is the only call, and nothing gives the reference
    back. *)
Lemma addMarker_same_command_looked_up (this : Z) (self : Event) (queue : Z)
    (record : bool) (w : W) :
  observe E (ProfilingEnabled queue) w = true ->
  let l := perform E (GetLastQueuedCommand queue true) w in
  l.1 <> nullptr ->
  observe E (CommandType l.1) l.2 <> 0 ->
  observe E (CommandEvent l.1) l.2 = event_ self ->
  exec E (Event_addMarker this self queue nullptr record) w =
    (self, l.2, [Locked this; Did (GetLastQueuedCommand queue true); Unlocked this]).
Proof.
  intros Hp l Hl Hty He. unfold Event_addMarker, addMarker_command. simpl.
  rewrite Hp. simpl. subst l.
  destruct (perform E (GetLastQueuedCommand queue true) w) as [c w1]. simpl in *.
  rewrite (proj2 (Z.eqb_neq _ _) Hl). simpl.
  rewrite (proj2 (Z.eqb_neq _ _) Hty). simpl.
  rewrite He, Z.eqb_refl. reflexivity.
Qed.

(** The sibling path: when the last command is a sync-only one, the
    reference that the look-up took is given back before a marker is
    made. *)
Lemma addMarker_invisible_last_released (queue : Z) (w : W) :
  observe E (ProfilingEnabled queue) w = true ->
  let l := perform E (GetLastQueuedCommand queue true) w in
  l.1 <> nullptr ->
  observe E (CommandType l.1) l.2 = 0 ->
  exists c,
    trace (exec E (addMarker_command queue nullptr) w) =
      [Did (GetLastQueuedCommand queue true); Did (ReleaseCommand l.1);
       Did (NewMarker queue kMarkerDisableFlush []); Did (Enqueue c)].
Proof.
  intros Hp l Hl Hty. unfold addMarker_command. simpl.
  rewrite Hp. simpl. subst l.
  destruct (perform E (GetLastQueuedCommand queue true) w) as [c w1]. simpl in *.
  rewrite (proj2 (Z.eqb_neq _ _) Hl). simpl.
  rewrite Hty. simpl. eexists. reflexivity.
Qed.

End record.

(** ** Two threads on two events *)

Section threads.
Context `{HipConstants} {W : Type} (E : Engine W).

(** On two distinct events [elapsedTime] first takes the monitor of [this]
    and then the monitor of [eStop]. *)
Lemma elapsedTime_lock_order (this eStop : Z) (self stop : Event) (ms : Q) :
  this <> eStop ->
  exists k, Event_elapsedTime this self eStop stop ms = Acquire this (Acquire eStop k).
Proof.
  intros Hne. unfold Event_elapsedTime.
  rewrite (proj2 (Z.eqb_neq _ _) Hne). unfold ScopedLock. simpl.
  eexists. reflexivity.
Qed.

(** X16.  The lock order of lines 60 and 78 under two threads: with
    [elapsedTime(A, B)] on one thread and [elapsedTime(B, A)] on the other,
    whatever the engine, its state and the two events, the schedule in which
    each thread takes its first monitor leaves both waiting for the monitor
    the other holds. *)
Theorem elapsedTime_opposite_order_deadlock (w : W) (a b : Z) (A B : Event)
    (ms1 ms2 : Q) :
  a <> b ->
  exists c,
    rtc (step E)
      (start w [Event_elapsedTime a A b B ms1; Event_elapsedTime b B a A ms2]) c
    /\ deadlocked E c.
Proof.
  intros Hne.
  destruct (elapsedTime_lock_order a b A B ms1 Hne) as [k1 ->].
  destruct (elapsedTime_lock_order b a B A ms2 (not_eq_sym Hne)) as [k2 ->].
  exists {| c_world := w; c_owner := <[b := 1%nat]> (<[a := 0%nat]> ∅);
            c_threads := [Acquire b k1; Acquire a k2] |}.
  split.
  - apply (run_schedule_rtc E [0%nat; 1%nat]). simpl.
    rewrite (thread_step_acquire E 0 _ a (Acquire b k1)) by reflexivity. simpl.
    rewrite lookup_empty.
    rewrite (thread_step_acquire E 1 _ b (Acquire a k2)) by reflexivity. simpl.
    rewrite lookup_insert_ne by exact Hne. rewrite lookup_empty. reflexivity.
  - split.
    + exists 0%nat, (Acquire b k1). split; reflexivity.
    + intros [|[|i]].
      * rewrite (thread_step_acquire E 0 _ b k1) by reflexivity. simpl.
        rewrite lookup_insert_eq. reflexivity.
      * rewrite (thread_step_acquire E 1 _ a k2) by reflexivity. simpl.
        rewrite lookup_insert_ne by (apply not_eq_sym, Hne).
        rewrite lookup_insert_eq. reflexivity.
      * reflexivity.
Qed.

Lemma returns_bind {A B : Type} (p : Prog A) (f : A -> Prog B) (w : W) (a : A) (b : B) :
  returns E w p a -> returns E w (f a) b -> returns E w (bind p f) b.
Proof.
  induction p as [x|o k IH|x k IH|l k IH|l k IH]; simpl; intros Hp Hf.
  - subst x. exact Hf.
  - apply IH; assumption.
  - contradiction.
  - apply IH; assumption.
  - apply IH; assumption.
Qed.

Lemma returns_ScopedLock {A : Type} (l : Z) (p : Prog A) (w : W) (a : A) :
  returns E w p a -> returns E w (ScopedLock l p) a.
Proof.
  intros Hp. unfold ScopedLock. simpl.
  eapply returns_bind; [exact Hp|]. reflexivity.
Qed.

Lemma returns_ready (self : Event) (w : W) :
  observe E (Status (event_ self)) w = CL_COMPLETE ->
  returns E w (Event_ready self) true.
Proof.
  intros Hc. unfold Event_ready. simpl. rewrite Hc, Z.eqb_refl. simpl.
  rewrite Hc, Z.eqb_refl. reflexivity.
Qed.

(** Both events complete, timing enabled, distinct handles, both recorded:
    the call only reads. *)
Lemma returns_elapsedTime (this eStop : Z) (self stop : Event) (ms : Q) (w : W) :
  this <> eStop ->
  event_ self <> nullptr -> event_ stop <> nullptr ->
  timingDisabled self = false -> timingDisabled stop = false ->
  observe E (Status (event_ self)) w = CL_COMPLETE ->
  observe E (Status (event_ stop)) w = CL_COMPLETE ->
  event_ self <> event_ stop ->
  recorded_ self = true -> recorded_ stop = true ->
  returns E w (Event_elapsedTime this self eStop stop ms)
    (hipSuccess,
     elapsed_ms (end_ (observe E (ProfilingInfo (event_ stop)) w))
                (end_ (observe E (ProfilingInfo (event_ self)) w))).
Proof.
  intros Hne Ha Hb Hta Htb Hca Hcb Hh Hra Hrb.
  unfold Event_elapsedTime.
  rewrite (proj2 (Z.eqb_neq _ _) Hne).
  rewrite (proj2 (Z.eqb_neq _ _) Ha), (proj2 (Z.eqb_neq _ _) Hb), truthy_land_lor.
  unfold timingDisabled in Hta, Htb. rewrite Hta, Htb. simpl orb. cbv iota.
  apply returns_ScopedLock, returns_ScopedLock.
  eapply returns_bind; [apply returns_ready, Hca|]. simpl negb. cbv iota.
  eapply returns_bind; [apply returns_ready, Hcb|]. simpl negb. cbv iota.
  unfold elapsedTime_measure.
  rewrite (proj2 (Z.eqb_neq _ _) Hh), Hra, Hrb. reflexivity.
Qed.

(** Threads that only read keep doing so under every interleaving, and the
    engine state stays put. *)
Lemma step_returns {R : Type} (c c' : Conf W R) (rs : list R) :
  step E c c' ->
  Forall2 (returns E (c_world c)) (c_threads c) rs ->
  c_world c' = c_world c /\ Forall2 (returns E (c_world c)) (c_threads c') rs.
Proof.
  intros [i Hs] Hall. unfold thread_step in Hs.
  destruct (c_threads c !! i) as [p|] eqn:Hp; [|discriminate].
  destruct (Forall2_lookup_l _ _ _ i p Hall Hp) as (r & Hr & Hret).
  rewrite <- (list_insert_id rs i r Hr).
  destruct p as [x|o k|x k|l k|l k]; simpl in Hret.
  - discriminate.
  - injection Hs as <-. simpl. split; [reflexivity|].
    apply Forall2_insert; assumption.
  - contradiction.
  - destruct (c_owner c !! l); [discriminate|].
    injection Hs as <-. simpl. split; [reflexivity|].
    apply Forall2_insert; assumption.
  - injection Hs as <-. simpl. split; [reflexivity|].
    apply Forall2_insert; assumption.
Qed.

Lemma rtc_returns {R : Type} (c c' : Conf W R) (rs : list R) :
  rtc (step E) c c' ->
  Forall2 (returns E (c_world c)) (c_threads c) rs ->
  c_world c' = c_world c /\ Forall2 (returns E (c_world c)) (c_threads c') rs.
Proof.
  induction 1 as [c|c c1 c2 Hs _ IH]; intros Hall.
  - split; [reflexivity|exact Hall].
  - destruct (step_returns c c1 rs Hs Hall) as [Hw Hall1].
    rewrite <- Hw in Hall1. destruct (IH Hall1) as [Hw2 Hall2].
    rewrite Hw in Hw2, Hall2. split; assumption.
Qed.

Lemma runs_alone_rtc {R : Type} (w : W) (i : nat) (p : Prog R) (r : R)
    (owner owner' : gmap Z nat) (ts : list (Prog R)) :
  ts !! i = Some p ->
  runs_alone E w i owner p r owner' ->
  rtc (step E) {| c_world := w; c_owner := owner; c_threads := ts |}
               {| c_world := w; c_owner := owner'; c_threads := <[i := Ret r]> ts |}.
Proof.
  revert owner ts.
  induction p as [x|o k IH|x k IH|l k IH|l k IH]; intros owner ts Hp Hrun; simpl in Hrun.
  - destruct Hrun as [-> ->]. rewrite list_insert_id by exact Hp. apply rtc_refl.
  - eapply rtc_l.
    + exists i. unfold thread_step. simpl. rewrite Hp. reflexivity.
    + rewrite <- (list_insert_insert_eq ts i (Ret r) (k (observe E o w))).
      apply (IH (observe E o w)); [|exact Hrun].
      apply list_lookup_insert_eq. eapply lookup_lt_Some, Hp.
  - contradiction.
  - destruct Hrun as [Hfree Hrun]. eapply rtc_l.
    + exists i. unfold thread_step. simpl. rewrite Hp, Hfree. reflexivity.
    + rewrite <- (list_insert_insert_eq ts i (Ret r) k).
      apply IH; [|exact Hrun].
      apply list_lookup_insert_eq. eapply lookup_lt_Some, Hp.
  - eapply rtc_l.
    + exists i. unfold thread_step. simpl. rewrite Hp. reflexivity.
    + rewrite <- (list_insert_insert_eq ts i (Ret r) k).
      apply IH; [|exact Hrun].
      apply list_lookup_insert_eq. eapply lookup_lt_Some, Hp.
Qed.

Lemma runs_alone_bind {A B : Type} (p : Prog A) (f : A -> Prog B) (w : W) (i : nat)
    (a : A) (b : B) (o o1 o2 : gmap Z nat) :
  runs_alone E w i o p a o1 -> runs_alone E w i o1 (f a) b o2 ->
  runs_alone E w i o (bind p f) b o2.
Proof.
  revert o. induction p as [x|ob k IH|x k IH|l k IH|l k IH]; simpl; intros o Hp Hf.
  - destruct Hp as [-> ->]. exact Hf.
  - apply IH; assumption.
  - contradiction.
  - destruct Hp as [Hfree Hp]. split; [exact Hfree|]. apply IH; assumption.
  - apply IH; assumption.
Qed.

Lemma runs_alone_ScopedLock {A : Type} (l : Z) (p : Prog A) (w : W) (i : nat) (a : A)
    (o : gmap Z nat) :
  o !! l = None ->
  runs_alone E w i (<[l := i]> o) p a (<[l := i]> o) ->
  runs_alone E w i o (ScopedLock l p) a o.
Proof.
  intros Hfree Hp. unfold ScopedLock. simpl. split; [exact Hfree|].
  eapply runs_alone_bind; [exact Hp|]. simpl. split; [reflexivity|].
  apply delete_insert_id, Hfree.
Qed.

Lemma runs_alone_ready (self : Event) (w : W) (i : nat) (o : gmap Z nat) :
  observe E (Status (event_ self)) w = CL_COMPLETE ->
  runs_alone E w i o (Event_ready self) true o.
Proof.
  intros Hc. unfold Event_ready. simpl. rewrite Hc, Z.eqb_refl. simpl.
  rewrite Hc, Z.eqb_refl. split; reflexivity.
Qed.

(** Both events complete, timing enabled, distinct handles, both recorded,
    both monitors free: the call runs to its end on its own. *)
Lemma runs_alone_elapsedTime (this eStop : Z) (self stop : Event) (ms : Q) (w : W)
    (i : nat) (o : gmap Z nat) :
  this <> eStop ->
  event_ self <> nullptr -> event_ stop <> nullptr ->
  timingDisabled self = false -> timingDisabled stop = false ->
  observe E (Status (event_ self)) w = CL_COMPLETE ->
  observe E (Status (event_ stop)) w = CL_COMPLETE ->
  event_ self <> event_ stop ->
  recorded_ self = true -> recorded_ stop = true ->
  o !! this = None -> o !! eStop = None ->
  runs_alone E w i o (Event_elapsedTime this self eStop stop ms)
    (hipSuccess,
     elapsed_ms (end_ (observe E (ProfilingInfo (event_ stop)) w))
                (end_ (observe E (ProfilingInfo (event_ self)) w))) o.
Proof.
  intros Hne Ha Hb Hta Htb Hca Hcb Hh Hra Hrb Hfa Hfb.
  unfold Event_elapsedTime.
  rewrite (proj2 (Z.eqb_neq _ _) Hne).
  rewrite (proj2 (Z.eqb_neq _ _) Ha), (proj2 (Z.eqb_neq _ _) Hb), truthy_land_lor.
  unfold timingDisabled in Hta, Htb. rewrite Hta, Htb. simpl orb. cbv iota.
  apply runs_alone_ScopedLock; [exact Hfa|].
  apply runs_alone_ScopedLock; [rewrite lookup_insert_ne by exact Hne; exact Hfb|].
  eapply runs_alone_bind; [apply runs_alone_ready, Hca|]. simpl negb. cbv iota.
  eapply runs_alone_bind; [apply runs_alone_ready, Hcb|]. simpl negb. cbv iota.
  unfold elapsedTime_measure.
  rewrite (proj2 (Z.eqb_neq _ _) Hh), Hra, Hrb. simpl. split; reflexivity.
Qed.

(** C10, as the code has it.  Two distinct events whose handles are both
    complete, differ, have timing enabled and were both recorded, and whose
    end time stamps differ by less than 2^63, with [elapsedTime(A, B)] on
    one thread and [elapsedTime(B, A)] on the other.  There is an
    interleaving in which both calls return; and under every interleaving in
    which both calls return, both return [hipSuccess], the first with the
    difference of the end time stamps over one million in [float], the
    second with that value with its sign inverted, and the engine is as it
    was. *)
Theorem elapsedTime_concurrent_sign_inverted (w : W) (a b : Z) (A B : Event)
    (ms1 ms2 : Q) :
  a <> b ->
  event_ A <> nullptr -> event_ B <> nullptr ->
  timingDisabled A = false -> timingDisabled B = false ->
  observe E (Status (event_ A)) w = CL_COMPLETE ->
  observe E (Status (event_ B)) w = CL_COMPLETE ->
  event_ A <> event_ B ->
  recorded_ A = true -> recorded_ B = true ->
  let end_A := end_ (observe E (ProfilingInfo (event_ A)) w) in
  let end_B := end_ (observe E (ProfilingInfo (event_ B)) w) in
  - 2 ^ 63 < end_B - end_A < 2 ^ 63 ->
  let calls := [Event_elapsedTime a A b B ms1; Event_elapsedTime b B a A ms2] in
  let v := binary32 (binary32 (inject_Z (end_B - end_A)) / 1000000) in
  (exists c, rtc (step E) (start w calls) c
             /\ c_threads c = [Ret (hipSuccess, v); Ret (hipSuccess, (- v)%Q)])
  /\ (forall (c : Conf W (hipError_t * Q)) (r1 r2 : hipError_t * Q),
        rtc (step E) (start w calls) c ->
        c_threads c = [Ret r1; Ret r2] ->
        r1 = (hipSuccess, v) /\ r2 = (hipSuccess, (- v)%Q) /\ c_world c = w).
Proof.
  intros Hne Ha Hb Hta Htb Hca Hcb Hh Hra Hrb end_A end_B Hd calls v.
  assert (H1 : elapsed_ms end_B end_A = v).
  { unfold elapsed_ms, v. rewrite to_int64_sub64 by lia. reflexivity. }
  assert (H2 : elapsed_ms end_A end_B = (- v)%Q).
  { unfold elapsed_ms. rewrite to_int64_sub64 by lia.
    change v with (ms_of_ticks (end_B - end_A)).
    rewrite <- ms_of_ticks_opp. f_equal. lia. }
  split.
  - exists {| c_world := w; c_owner := ∅;
              c_threads := [Ret (hipSuccess, v); Ret (hipSuccess, (- v)%Q)] |}.
    split; [|reflexivity].
    etrans.
    + apply (runs_alone_rtc w 0 (Event_elapsedTime a A b B ms1)
               (hipSuccess, elapsed_ms end_B end_A) ∅ ∅ calls eq_refl).
      apply runs_alone_elapsedTime; try assumption; apply lookup_empty.
    + simpl. rewrite H1.
      apply (runs_alone_rtc w 1 (Event_elapsedTime b B a A ms2)
               (hipSuccess, (- v)%Q) ∅ ∅
               [Ret (hipSuccess, v); Event_elapsedTime b B a A ms2] eq_refl).
      rewrite <- H2.
      apply runs_alone_elapsedTime; try assumption;
        try apply lookup_empty; apply not_eq_sym; assumption.
  - intros c r1 r2 Hrun Hend.
    destruct (rtc_returns _ _
                [(hipSuccess, elapsed_ms end_B end_A); (hipSuccess, elapsed_ms end_A end_B)]
                Hrun) as [Hw Hall].
    { simpl. repeat constructor.
      - apply returns_elapsedTime; assumption.
      - apply returns_elapsedTime; try assumption; apply not_eq_sym; assumption. }
    rewrite Hend in Hall. simpl in Hw, Hall.
    apply Forall2_cons_1 in Hall as [Hr1 Hall].
    apply Forall2_cons_1 in Hall as [Hr2 _].
    simpl in Hr1, Hr2. rewrite Hr1, Hr2, H1, H2.
    split; [reflexivity|]. split; [reflexivity|exact Hw].
Qed.

End threads.

(** ** Elapsed time, the rest *)

Section elapsedTime_paths.
Context `{HipConstants} {W : Type} (E : Engine W).

(** X1.  Two distinct events pass the checks, their handles differ, and at
    least one of them was not recorded: [elapsedTime] creates no marker and
    waits for nothing, and returns [hipSuccess] with a value computed from
    [ticks], the 64-bit difference of the stop handle's end time stamp and
    the start handle's start time stamp read as [int64_t].  The value is
    [ticks] converted to [float] and divided by one million in [float]: it
    is a [float], and it is the quotient [ticks / 1000000] to within one
    part in eight million of it.  When the difference of the time stamps
    fits [int64_t], [ticks] is that difference. *)
Theorem elapsedTime_distinct_handles_unrecorded (this eStop : Z) (self stop : Event)
    (ms : Q) (w w' : W) (t : list Step) :
  this <> eStop ->
  validated E self stop w w' t ->
  event_ self <> event_ stop ->
  recorded_ self && recorded_ stop = false ->
  let stop_end := end_ (observe E (ProfilingInfo (event_ stop)) w') in
  let start_start := start_ (observe E (ProfilingInfo (event_ self)) w') in
  let ticks := to_int64 (sub64 stop_end start_start) in
  let value := binary32 (binary32 (inject_Z ticks) / 1000000) in
  exec E (Event_elapsedTime this self eStop stop ms) w =
    (hipSuccess, value, w',
     Locked this :: Locked eStop :: t ++ [Unlocked eStop; Unlocked this])
  /\ is_float value
  /\ (Qabs (value - (ticks # 1000000)) <= Qabs (ticks # 1000000) * (1 # 8000000))%Q
  /\ (- 2 ^ 63 <= stop_end - start_start < 2 ^ 63 -> ticks = stop_end - start_start).
Proof.
  intros Hne Hv Hh Hrec stop_end start_start ticks value.
  split; [|exact (elapsed_value stop_end start_start)].
  rewrite (elapsedTime_validated E this eStop self stop ms w w' w' t []
             (hipSuccess, value) Hne Hv).
  - reflexivity.
  - unfold elapsedTime_measure.
    rewrite (proj2 (Z.eqb_neq _ _) Hh). simpl negb. simpl andb.
    rewrite Hrec. reflexivity.
Qed.

(** X2.  Whatever the engine does, [elapsedTime] returns [hipSuccess],
    [hipErrorInvalidHandle] or [hipErrorNotReady] and nothing else; on the
    two errors [ms] is left as the caller had it; and it returns
    [hipSuccess] only when the start event has a handle and timing enabled,
    and for two distinct events the stop event as well. *)
Theorem elapsedTime_outcomes (this eStop : Z) (self stop : Event) (ms : Q) (w : W) :
  let r := result (exec E (Event_elapsedTime this self eStop stop ms) w) in
  (r = (hipErrorInvalidHandle, ms) \/ r = (hipErrorNotReady, ms) \/ r.1 = hipSuccess)
  /\ (r.1 = hipSuccess ->
      event_ self <> nullptr /\ timingDisabled self = false /\
      (this <> eStop -> event_ stop <> nullptr /\ timingDisabled stop = false)).
Proof.
  cbv zeta.
  apply (all_paths_exec E (Event_elapsedTime this self eStop stop ms)
           (fun r _ =>
              (r = (hipErrorInvalidHandle, ms) \/ r = (hipErrorNotReady, ms) \/
               r.1 = hipSuccess)
              /\ (r.1 = hipSuccess ->
                  event_ self <> nullptr /\ timingDisabled self = false /\
                  (this <> eStop ->
                   event_ stop <> nullptr /\ timingDisabled stop = false)))).
  unfold Event_elapsedTime, elapsedTime_measure, ScopedLock, Event_ready, timingDisabled.
  rewrite truthy_land_lor.
  split_paths;
    (split;
     [first [left; reflexivity | right; left; reflexivity | right; right; reflexivity]|]);
    simpl; intros Hs; try discriminate Hs;
    repeat match goal with
           | Hq : (_ =? _)%Z = true |- _ => apply Z.eqb_eq in Hq
           | Hq : (_ =? _)%Z = false |- _ => apply Z.eqb_neq in Hq
           | Hq : (_ || _)%bool = false |- _ => apply orb_false_iff in Hq as [? ?]
           end;
    repeat split; try assumption; try congruence; intros; try split; congruence.
Qed.

(** X3.  The only path of [elapsedTime] that creates a marker or waits for
    the device is the one for two distinct events with one shared handle of
    which at least one was recorded: a self comparison, two events with
    different handles, and two events neither of which was recorded make no
    such call, whatever the engine answers. *)
Theorem elapsedTime_waits_only_for_marker (this eStop : Z) (self stop : Event)
    (ms : Q) (w : W) :
  this = eStop \/ event_ self <> event_ stop \/
    recorded_ self || recorded_ stop = false ->
  Forall (fun s => waits s = false /\ is_new_marker s = false)
    (trace (exec E (Event_elapsedTime this self eStop stop ms) w)).
Proof.
  intros Hc.
  apply (all_paths_exec E (Event_elapsedTime this self eStop stop ms)
           (fun _ t => Forall (fun s => waits s = false /\ is_new_marker s = false) t)).
  unfold Event_elapsedTime, elapsedTime_measure, ScopedLock, Event_ready.
  split_paths; try (repeat constructor; fail);
    exfalso;
    repeat match goal with
           | Hq : (_ =? _)%Z = true |- _ => apply Z.eqb_eq in Hq
           | Hq : (_ =? _)%Z = false |- _ => apply Z.eqb_neq in Hq
           | Hq : (_ && _)%bool = true |- _ => apply andb_true_iff in Hq as [? ?]
           end;
    destruct Hc as [Hc|[Hc|Hc]]; congruence.
Qed.

(** X4.  The value that lines 94, 103 and 110 compute from two 64-bit
    time stamps is a tick count over one million, computed in [float];
    the tick count always fits [int64_t] and agrees with the difference of the stamps modulo
    2^64; when the difference itself fits, it is the difference, so a
    first stamp below the second gives a negative value and equal stamps
    give 0. *)
Theorem elapsed_ms_ticks (x y : Z) :
  exists d,
    elapsed_ms x y = ms_of_ticks d
    /\ - 2 ^ 63 <= d < 2 ^ 63
    /\ (d - (x - y)) mod 2 ^ 64 = 0
    /\ (- 2 ^ 63 <= x - y < 2 ^ 63 ->
        d = x - y /\ (x < y <-> (elapsed_ms x y < 0)%Q)
        /\ (x = y <-> (elapsed_ms x y == 0)%Q)).
Proof.
  exists (to_int64 (sub64 x y)). split; [reflexivity|].
  pose proof (Z.mod_pos_bound (x - y) (2 ^ 64) ltac:(lia)) as Hb.
  assert (Hcong : (to_int64 (sub64 x y) - (x - y)) mod 2 ^ 64 = 0).
  { unfold to_int64, sub64.
    destruct (Z.ltb_spec ((x - y) mod 2 ^ 64) (2 ^ 63)).
    - rewrite Zminus_mod, Z.mod_mod, Z.sub_diag by lia. reflexivity.
    - replace ((x - y) mod 2 ^ 64 - 2 ^ 64 - (x - y))
        with ((x - y) mod 2 ^ 64 - (x - y) + (-1) * 2 ^ 64) by lia.
      rewrite Z.mod_add by lia.
      rewrite Zminus_mod, Z.mod_mod, Z.sub_diag by lia. reflexivity. }
  split; [|split; [exact Hcong|]].
  - unfold to_int64, sub64.
    destruct (Z.ltb_spec ((x - y) mod 2 ^ 64) (2 ^ 63)); lia.
  - intros Hr. rewrite (to_int64_sub64 x y Hr). split; [reflexivity|].
    unfold elapsed_ms. rewrite (to_int64_sub64 x y Hr).
    rewrite <- ms_of_ticks_negative, <- ms_of_ticks_zero. split; split; lia.
Qed.

End elapsedTime_paths.

(** ** Query and synchronize on a bound event *)

Section bound.
Context `{HipConstants} {W : Type} (E : Engine W).

(** X5.  [query] on an event with a handle: when the handle is complete it
    returns [hipSuccess] without a call that changes the engine; when it is
    not, it nudges the queue once, ignores what the nudge returns, and
    returns [hipSuccess] or [hipErrorNotReady] by the status after the
    nudge. *)
Theorem query_bound (this : Z) (self : Event) (w : W) :
  event_ self <> nullptr ->
  (observe E (Status (event_ self)) w = CL_COMPLETE ->
   exec E (Event_query this self) w = (hipSuccess, w, [Locked this; Unlocked this]))
  /\ (observe E (Status (event_ self)) w <> CL_COMPLETE ->
      let n := perform E (NotifyCmdQueue (event_ self)) w in
      exec E (Event_query this self) w =
        (if observe E (Status (event_ self)) n.2 =? CL_COMPLETE
         then hipSuccess else hipErrorNotReady,
         n.2, [Locked this; Did (NotifyCmdQueue (event_ self)); Unlocked this])).
Proof.
  intros Hh. rewrite (query_exec E this self w Hh), ready_exec. split.
  - intros Hc. rewrite Hc, Z.eqb_refl. reflexivity.
  - intros Hc. rewrite (proj2 (Z.eqb_neq _ _) Hc). reflexivity.
Qed.

(** X6.  [synchronize] on an event with a handle calls [awaitCompletion]
    once and returns [hipSuccess] whatever that call returns.  With an
    engine whose [awaitCompletion] returns with the handle complete, a
    [query] that follows returns [hipSuccess] without a nudge, and with
    timing enabled [elapsedTime] of the event with itself returns
    [hipSuccess] and 0. *)
Theorem synchronize_then_query (this : Z) (self : Event) (ms : Q) (w : W) :
  event_ self <> nullptr ->
  (forall h w0, observe E (Status h) (perform E (AwaitCompletion h) w0).2 = CL_COMPLETE) ->
  let once := exec E (Event_synchronize this self) w in
  result once = hipSuccess
  /\ trace once = [Locked this; Did (AwaitCompletion (event_ self)); Unlocked this]
  /\ exec E (Event_query this self) (final once) =
       (hipSuccess, final once, [Locked this; Unlocked this])
  /\ (timingDisabled self = false ->
      exec E (Event_elapsedTime this self this self ms) (final once) =
        (hipSuccess, 0%Q, final once, [Locked this; Unlocked this])).
Proof.
  intros Hh Hdone. cbv zeta. rewrite (synchronize_exec E this self w Hh).
  unfold result, final, trace. pose proof (Hdone (event_ self) w) as Hc.
  destruct (perform E (AwaitCompletion (event_ self)) w) as [b w1].
  cbn [fst snd] in *.
  assert (Hr : exec E (Event_ready self) w1 = (true, w1, [])).
  { rewrite ready_exec, Hc, Z.eqb_refl. reflexivity. }
  split; [reflexivity|]. split; [reflexivity|]. split.
  - rewrite (query_exec E this self _ Hh), Hr. reflexivity.
  - intros Ht. unfold Event_elapsedTime. rewrite Z.eqb_refl.
    unfold timingDisabled in Ht. rewrite (proj2 (Z.eqb_neq _ _) Hh), Ht.
    apply (exec_ScopedLock E this _ w1 w1 (hipSuccess, 0%Q) []).
    rewrite <- (app_nil_r []).
    eapply exec_bind_eq; [exact Hr|]. reflexivity.
Qed.

End bound.

(** ** Record, the rest *)

Section record_paths.
Context `{HipConstants} {W : Type} (E : Engine W).

(** X7.  On every path of [addMarker], whatever the engine answers: the
    flags of the event stay as they are; the event is either left exactly
    as it was or gets [recorded_ = record]; no call waits for the device;
    and [release] is never called on a null pointer. *)
Theorem addMarker_invariants (this : Z) (self : Event) (queue command : Z)
    (record : bool) (w : W) :
  let r := exec E (Event_addMarker this self queue command record) w in
  flags (result r) = flags self
  /\ (result r = self \/ recorded_ (result r) = record)
  /\ Forall (fun s => waits s = false /\ is_release_of nullptr s = false) (trace r).
Proof.
  cbv zeta.
  apply (all_paths_exec E (Event_addMarker this self queue command record)
           (fun e t =>
              flags e = flags self
              /\ (e = self \/ recorded_ e = record)
              /\ Forall (fun s => waits s = false /\ is_release_of nullptr s = false) t)).
  unfold Event_addMarker, addMarker_command, ScopedLock.
  split_paths;
    (split; [reflexivity|]);
    (split; [first [left; reflexivity | right; reflexivity]|]);
    repeat (constructor; [split; [reflexivity|simpl; try reflexivity]|]);
    first [constructor | assumption | apply negb_true_iff; assumption].
Qed.

(** [addMarker] with a command of the caller whose handle the event does
    not hold: the queue is not asked for its last command and nothing is
    created or enqueued; the old handle, when there is one, is released
    exactly once; no reference is taken on the new command. *)
Lemma addMarker_rebinds_given_command (this : Z) (self : Event) (queue command : Z)
    (record : bool) (w : W) :
  command <> nullptr ->
  observe E (CommandEvent command) w <> event_ self ->
  let w1 := if event_ self =? nullptr then w
            else (perform E (ReleaseEvent (event_ self)) w).2 in
  exec E (Event_addMarker this self queue command record) w =
    ({| flags := flags self;
        event_ := observe E (CommandEvent command) w1;
        recorded_ := record |},
     w1,
     Locked this ::
       (if event_ self =? nullptr then [] else [Did (ReleaseEvent (event_ self))])
       ++ [Unlocked this]).
Proof.
  intros Hc He. unfold Event_addMarker, addMarker_command. simpl.
  rewrite (proj2 (Z.eqb_neq _ _) Hc).
  assert (Hne : (event_ self =? observe E (CommandEvent command) w) = false).
  { apply Z.eqb_neq. congruence. }
  destruct (observe E (ProfilingEnabled queue) w); simpl; rewrite Hne;
    destruct (event_ self =? 0); reflexivity.
Qed.

(** X8.  The command that [addMarker] binds is a marker made for the
    occasion exactly when the caller hands in none and either the queue
    has no profiling, or it has no last command, or its last command is a
    sync-only one (type 0); in every other case nothing is created. *)
Theorem addMarker_creates_marker_iff (queue command : Z) (w : W) :
  let l := perform E (GetLastQueuedCommand queue true) w in
  Exists (fun s => is_new_marker s = true)
    (trace (exec E (addMarker_command queue command) w))
  <-> command = nullptr /\
      (observe E (ProfilingEnabled queue) w = false \/ l.1 = nullptr \/
       observe E (CommandType l.1) l.2 = 0).
Proof.
  cbv zeta. unfold addMarker_command. simpl.
  destruct (observe E (ProfilingEnabled queue) w) eqn:Hp; simpl.
  - destruct (Z.eqb_spec command 0) as [Hc|Hc]; simpl.
    + destruct (perform E (GetLastQueuedCommand queue true) w) as [c w1]. simpl.
      destruct (Z.eqb_spec c 0) as [Hl|Hl]; simpl.
      * split; [intros _; split; [exact Hc|right; left; exact Hl]|].
        intros _. apply Exists_cons_tl, Exists_cons_hd. reflexivity.
      * destruct (Z.eqb_spec (observe E (CommandType c) w1) 0) as [Hty|Hty]; simpl.
        -- split; [intros _; split; [exact Hc|right; right; exact Hty]|].
           intros _. apply Exists_cons_tl, Exists_cons_tl, Exists_cons_hd. reflexivity.
        -- split.
           ++ intros Hex. apply Exists_cons in Hex as [Hex|Hex]; [discriminate|].
              apply Exists_nil in Hex. contradiction.
           ++ intros [_ [Hx|[Hx|Hx]]]; congruence.
    + split.
      * intros Hex. apply Exists_nil in Hex. contradiction.
      * intros [Hx _]. contradiction.
  - destruct (Z.eqb_spec command 0) as [Hc|Hc]; simpl.
    + split; [intros _; split; [exact Hc|left; reflexivity]|].
      intros _. apply Exists_cons_hd. reflexivity.
    + split.
      * intros Hex. apply Exists_nil in Hex. contradiction.
      * intros [Hx _]. contradiction.
Qed.

(** X9.  [addMarker] when the handle of the command it resolves is not
    the one the event holds: after the calls that resolve the command it
    releases the old handle, exactly once and only when there is one, and
    makes no other call; the event takes the handle of the command and
    [recorded_ = record].  The reference that the resolution took on the
    command (by the retaining look-up, or by creating the marker) is the
    one the event keeps. *)
Theorem addMarker_rebinds (this : Z) (self : Event) (queue command : Z)
    (record : bool) (w : W) :
  let r0 := exec E (addMarker_command queue command) w in
  observe E (CommandEvent (result r0)) (final r0) <> event_ self ->
  let w1 := if event_ self =? nullptr then final r0
            else (perform E (ReleaseEvent (event_ self)) (final r0)).2 in
  exec E (Event_addMarker this self queue command record) w =
    ({| flags := flags self;
        event_ := observe E (CommandEvent (result r0)) w1;
        recorded_ := record |},
     w1,
     Locked this :: trace r0
       ++ (if event_ self =? nullptr then [] else [Did (ReleaseEvent (event_ self))])
       ++ [Unlocked this]).
Proof.
  intros r0 He w1. subst w1 r0. unfold Event_addMarker.
  destruct (exec E (addMarker_command queue command) w) as [[c w0] t0] eqn:H0.
  unfold result, final, trace in *. cbn [fst snd] in *.
  assert (Hne : (event_ self =? observe E (CommandEvent c) w0) = false).
  { apply Z.eqb_neq. congruence. }
  rewrite (exec_ScopedLock E this _ w
             (if event_ self =? 0 then w0
              else (perform E (ReleaseEvent (event_ self)) w0).2)
             {| flags := flags self;
                event_ := observe E (CommandEvent c)
                            (if event_ self =? 0 then w0
                             else (perform E (ReleaseEvent (event_ self)) w0).2);
                recorded_ := record |}
             (t0 ++ (if event_ self =? 0 then []
                     else [Did (ReleaseEvent (event_ self))]))).
  - rewrite <- app_assoc. reflexivity.
  - eapply exec_bind_eq; [exact H0|]. simpl. rewrite Hne.
    destruct (event_ self =? 0); reflexivity.
Qed.

End record_paths.

(** ** Creation, the rest *)

Section create_heap.
Context `{HipConstants}.

(** X10.  [ihipEventCreateWithFlags] on any input: when it does not return
    [hipSuccess] the heap of events and the caller's slot are as they
    were; when it does, the slot holds the new address, the new object is
    there with the flags given, a null handle and [recorded_ = false], and
    every other event object is as it was. *)
Theorem create_frame (heap : gmap Z Event) (event : option Z) (flags newp : Z) :
  let r := ihipEventCreateWithFlags heap event flags newp in
  (r.1.1 <> hipSuccess -> r.1.2 = heap /\ r.2 = event)
  /\ (r.1.1 = hipSuccess ->
      newp <> nullptr /\ r.2 = Some newp /\
      r.1.2 !! newp = Some (Event_new flags) /\
      forall a, a <> newp -> r.1.2 !! a = heap !! a).
Proof.
  cbv zeta. unfold ihipEventCreateWithFlags.
  destruct event as [old|]; [|split; [intros _; split; reflexivity|discriminate]].
  cbv zeta.
  destruct (negb _); [|split; [intros _; split; reflexivity|discriminate]].
  destruct (Z.eqb_spec newp 0) as [Hn|Hn]; simpl.
  - split; [intros _; split; reflexivity|discriminate].
  - split; [intros Hx; contradiction|]. intros _.
    split; [exact Hn|]. split; [reflexivity|]. split.
    + apply lookup_insert_eq.
    + intros a Ha. apply lookup_insert_ne. congruence.
Qed.

End create_heap.

(** ** One event, two threads *)

Section one_event.
Context `{HipConstants} {W : Type} (E : Engine W).

(** X15.  [synchronize] holds the monitor of the event while it waits for
    the device.  With [synchronize] on one thread and [query] of the same
    event on another, once [synchronize] has taken the monitor [query]
    cannot take a step, the only step there is is the [awaitCompletion] of
    [synchronize], and after it [query] still cannot take a step. *)
Theorem query_waits_behind_synchronize (w : W) (a : Z) (e : Event) :
  event_ e <> nullptr ->
  exists c : Conf W hipError_t,
    rtc (step E) (start w [Event_synchronize a e; Event_query a e]) c
    /\ c_world c = w
    /\ c_threads c !! 1%nat = Some (Event_query a e)
    /\ thread_step E 1 c = None
    /\ exists c',
         thread_step E 0 c = Some c'
         /\ c_world c' = (perform E (AwaitCompletion (event_ e)) w).2
         /\ c_threads c' !! 1%nat = Some (Event_query a e)
         /\ thread_step E 1 c' = None.
Proof.
  intros Hh.
  assert (Hs : Event_synchronize a e =
               Acquire a (Perform (AwaitCompletion (event_ e))
                            (fun _ => Release a (Ret hipSuccess)))).
  { unfold Event_synchronize. rewrite (proj2 (Z.eqb_neq _ _) Hh). reflexivity. }
  assert (Hq : exists k, Event_query a e = Acquire a k).
  { unfold Event_query, ScopedLock. eexists. reflexivity. }
  destruct Hq as [k Hq]. rewrite Hs, Hq.
  exists {| c_world := w; c_owner := <[a := 0%nat]> ∅;
            c_threads := [Perform (AwaitCompletion (event_ e))
                            (fun _ => Release a (Ret hipSuccess));
                          Acquire a k] |}.
  split; [|split; [reflexivity|split; [reflexivity|split]]].
  - apply rtc_once. exists 0%nat.
    rewrite (thread_step_acquire E 0 _ a
               (Perform (AwaitCompletion (event_ e))
                  (fun _ => Release a (Ret hipSuccess)))) by reflexivity.
    simpl. rewrite lookup_empty. reflexivity.
  - rewrite (thread_step_acquire E 1 _ a k) by reflexivity. simpl.
    rewrite lookup_insert_eq. reflexivity.
  - eexists. split; [reflexivity|]. simpl.
    split; [reflexivity|]. split; [reflexivity|].
    rewrite (thread_step_acquire E 1 _ a k) by reflexivity. simpl.
    rewrite lookup_insert_eq. reflexivity.
Qed.

End one_event.

(** ** Lock order *)

Section lock_order.
Context `{HipConstants} {W : Type} (E : Engine W).

Lemma disciplined_bind {A B : Type} (p : Prog A) (f : A -> Prog B)
    (hs hs1 hs2 : list Z) :
  disciplined hs p hs1 -> (forall a, disciplined hs1 (f a) hs2) ->
  disciplined hs (bind p f) hs2.
Proof.
  revert hs. induction p as [a|o k IH|a k IH|l k IH|l k IH]; simpl; intros hs Hp Hf.
  - subst hs1. apply Hf.
  - intros r. apply IH; [apply Hp|exact Hf].
  - intros r. apply IH; [apply Hp|exact Hf].
  - destruct Hp as [Hlt Hp]. split; [exact Hlt|]. apply IH; assumption.
  - destruct hs as [|h t]; [contradiction|]. destruct Hp as [Hl Hp].
    split; [exact Hl|]. apply IH; assumption.
Qed.

Lemma disciplined_ScopedLock {A : Type} (l : Z) (p : Prog A) (hs : list Z) :
  Forall (fun h => h < l) hs ->
  disciplined (l :: hs) p (l :: hs) ->
  disciplined hs (ScopedLock l p) hs.
Proof.
  intros Hlt Hp. unfold ScopedLock. simpl. split; [exact Hlt|].
  eapply disciplined_bind; [exact Hp|]. intros a. simpl. split; reflexivity.
Qed.

Lemma disciplined_ready (self : Event) (hs : list Z) :
  disciplined hs (Event_ready self) hs.
Proof. unfold Event_ready. split_paths; reflexivity. Qed.

Lemma disciplined_measure (self stop : Event) (hs : list Z) :
  disciplined hs (elapsedTime_measure self stop) hs.
Proof. unfold elapsedTime_measure. split_paths; reflexivity. Qed.

Lemma disciplined_query (this : Z) (self : Event) :
  disciplined [] (Event_query this self) [].
Proof.
  unfold Event_query. apply disciplined_ScopedLock; [constructor|].
  destruct (event_ self =? 0); [reflexivity|].
  eapply disciplined_bind; [apply disciplined_ready|]. intros r. reflexivity.
Qed.

Lemma disciplined_synchronize (this : Z) (self : Event) :
  disciplined [] (Event_synchronize this self) [].
Proof.
  unfold Event_synchronize. apply disciplined_ScopedLock; [constructor|].
  split_paths; reflexivity.
Qed.

Lemma disciplined_streamWait (this : Z) (self : Event) (hostQueue flags' : Z) :
  disciplined [] (Event_streamWait this self hostQueue flags') [].
Proof.
  unfold Event_streamWait. destruct (event_ self =? 0); [reflexivity|].
  simpl. intros q. destruct (q =? hostQueue); [reflexivity|].
  apply disciplined_ScopedLock; [constructor|].
  split_paths; reflexivity.
Qed.

Lemma disciplined_addMarker (this : Z) (self : Event) (queue command : Z)
    (record : bool) :
  disciplined [] (Event_addMarker this self queue command record) [].
Proof.
  unfold Event_addMarker. apply disciplined_ScopedLock; [constructor|].
  unfold addMarker_command. split_paths; reflexivity.
Qed.

Lemma disciplined_elapsedTime (this eStop : Z) (self stop : Event) (ms : Q) :
  this <= eStop ->
  disciplined [] (Event_elapsedTime this self eStop stop ms) [].
Proof.
  intros Hle. unfold Event_elapsedTime.
  apply disciplined_ScopedLock; [constructor|].
  destruct (Z.eqb_spec this eStop) as [Heq|Hne].
  - destruct (event_ self =? 0); [reflexivity|].
    destruct (truthy _); [reflexivity|].
    eapply disciplined_bind; [apply disciplined_ready|].
    intros r. destruct r; reflexivity.
  - apply disciplined_ScopedLock; [repeat constructor; lia|].
    destruct (_ || _); [reflexivity|].
    destruct (truthy _); [reflexivity|].
    eapply disciplined_bind; [apply disciplined_ready|].
    intros r1. destruct r1; [|reflexivity]. simpl negb. cbv iota.
    eapply disciplined_bind; [apply disciplined_ready|].
    intros r2. destruct r2; [|reflexivity]. simpl negb. cbv iota.
    apply disciplined_measure.
Qed.

Lemma disciplined_call (c : Call) :
  ordered_call c -> disciplined [] (call_prog c) [].
Proof.
  intros Ho. destruct c; unfold call_prog;
    (eapply (disciplined_bind _ _ [] [] []); [|intros a; reflexivity]).
  - apply disciplined_query.
  - apply disciplined_synchronize.
  - apply disciplined_elapsedTime, Ho.
  - apply disciplined_streamWait.
  - apply disciplined_addMarker.
Qed.

Lemma list_max_exists (L : list Z) :
  L <> [] -> exists m, m ∈ L /\ forall x, x ∈ L -> x <= m.
Proof.
  induction L as [|y L IH]; [congruence|]. intros _.
  destruct L as [|z L].
  - exists y. split; [apply elem_of_cons; left; reflexivity|].
    intros x Hx. apply elem_of_cons in Hx as [->|Hx]; [lia|].
    apply not_elem_of_nil in Hx. contradiction.
  - destruct (IH ltac:(congruence)) as (m & Hm & Hmax).
    destruct (Z_le_gt_dec y m) as [Hle|Hgt].
    + exists m. split; [apply elem_of_cons; right; exact Hm|].
      intros x Hx. apply elem_of_cons in Hx as [->|Hx]; [exact Hle|apply Hmax, Hx].
    + exists y. split; [apply elem_of_cons; left; reflexivity|].
      intros x Hx. apply elem_of_cons in Hx as [->|Hx]; [lia|].
      specialize (Hmax x Hx). lia.
Qed.

Lemma lock_inv_start {R : Type} (w : W) (ps : list (Prog R)) :
  Forall (fun p => disciplined [] p []) ps ->
  lock_inv (start w ps) (replicate (length ps) []).
Proof.
  intros Hps. split; simpl.
  - induction Hps as [|p ps Hp _ IH]; simpl; constructor.
    + split; [exact Hp|constructor].
    + exact IH.
  - intros l i. rewrite lookup_empty. split; [discriminate|].
    intros (hs & Hst & Hin). apply lookup_replicate in Hst as [-> _].
    apply not_elem_of_nil in Hin. contradiction.
Qed.

Lemma lock_inv_step {R : Type} (c c' : Conf W R) (st : list (list Z)) :
  lock_inv c st -> step E c c' -> exists st', lock_inv c' st'.
Proof.
  intros [Hall Hown] [i Hs]. unfold thread_step in Hs.
  destruct (c_threads c !! i) as [p|] eqn:Hp; [|discriminate].
  destruct (Forall2_lookup_l _ _ _ i p Hall Hp) as (hs & Hst & Hd & Hnd).
  pose proof (lookup_lt_Some _ _ _ Hst) as Hlen.
  destruct p as [x|o k|x k|l k|l k]; simpl in Hd.
  - discriminate.
  - injection Hs as <-. exists st. split; simpl; [|exact Hown].
    rewrite <- (list_insert_id st i hs Hst).
    apply Forall2_insert; [exact Hall|]. split; [apply Hd|exact Hnd].
  - injection Hs as <-. exists st. split; simpl; [|exact Hown].
    rewrite <- (list_insert_id st i hs Hst).
    apply Forall2_insert; [exact Hall|]. split; [apply Hd|exact Hnd].
  - destruct (c_owner c !! l) as [o|] eqn:Ho; [discriminate|].
    injection Hs as <-. destruct Hd as [Hlt Hd].
    assert (Hnin : l ∉ hs).
    { intros Hin. pose proof (proj1 (Forall_forall _ _) Hlt l Hin) as Hll.
      simpl in Hll. lia. }
    exists (<[i := l :: hs]> st). split; simpl.
    + apply Forall2_insert; [exact Hall|]. split; [exact Hd|].
      apply NoDup_cons. split; assumption.
    + intros l' j. destruct (decide (l' = l)) as [->|Hl].
      * rewrite lookup_insert_eq. split.
        -- intros [= <-]. exists (l :: hs). split.
           ++ apply list_lookup_insert_eq, Hlen.
           ++ apply elem_of_cons. left. reflexivity.
        -- intros (hs' & Hst' & Hin). destruct (decide (j = i)) as [->|Hj]; [reflexivity|].
           rewrite list_lookup_insert_ne in Hst' by congruence.
           assert (Hc : c_owner c !! l = Some j) by (apply Hown; eauto).
           congruence.
      * rewrite lookup_insert_ne by congruence. rewrite Hown. split.
        -- intros (hs' & Hst' & Hin). destruct (decide (j = i)) as [->|Hj].
           ++ exists (l :: hs). split; [apply list_lookup_insert_eq, Hlen|].
              apply elem_of_cons. right. congruence.
           ++ exists hs'. split; [|exact Hin].
              rewrite list_lookup_insert_ne by congruence. exact Hst'.
        -- intros (hs' & Hst' & Hin). destruct (decide (j = i)) as [->|Hj].
           ++ rewrite list_lookup_insert_eq in Hst' by exact Hlen.
              injection Hst' as <-. apply elem_of_cons in Hin as [Hin|Hin]; [congruence|].
              exists hs. split; assumption.
           ++ rewrite list_lookup_insert_ne in Hst' by congruence.
              exists hs'. split; assumption.
  - destruct hs as [|h t]; [contradiction|]. destruct Hd as [-> Hd].
    injection Hs as <-. apply NoDup_cons in Hnd as [Hnin Hnd].
    exists (<[i := t]> st). split; simpl.
    + apply Forall2_insert; [exact Hall|]. split; assumption.
    + intros l' j. destruct (decide (l' = l)) as [->|Hl].
      * rewrite lookup_delete_eq. split; [discriminate|].
        intros (hs' & Hst' & Hin). exfalso.
        destruct (decide (j = i)) as [->|Hj].
        -- rewrite list_lookup_insert_eq in Hst' by exact Hlen.
           injection Hst' as <-. contradiction.
        -- rewrite list_lookup_insert_ne in Hst' by congruence.
           assert (Hj' : c_owner c !! l = Some j) by (apply Hown; eauto).
           assert (Hi' : c_owner c !! l = Some i).
           { apply Hown. exists (l :: t). split; [exact Hst|].
             apply elem_of_cons. left. reflexivity. }
           congruence.
      * rewrite lookup_delete_ne by congruence. rewrite Hown. split.
        -- intros (hs' & Hst' & Hin). destruct (decide (j = i)) as [->|Hj].
           ++ exists t. split; [apply list_lookup_insert_eq, Hlen|].
              rewrite Hst in Hst'. injection Hst' as <-.
              apply elem_of_cons in Hin as [Hin|Hin]; [congruence|exact Hin].
           ++ exists hs'. split; [|exact Hin].
              rewrite list_lookup_insert_ne by congruence. exact Hst'.
        -- intros (hs' & Hst' & Hin). destruct (decide (j = i)) as [->|Hj].
           ++ rewrite list_lookup_insert_eq in Hst' by exact Hlen.
              injection Hst' as <-. exists (l :: t). split; [exact Hst|].
              apply elem_of_cons. right. exact Hin.
           ++ rewrite list_lookup_insert_ne in Hst' by congruence.
              exists hs'. split; assumption.
Qed.

Lemma lock_inv_progress {R : Type} (c : Conf W R) (st : list (list Z)) :
  lock_inv c st -> ~ deadlocked E c.
Proof.
  intros [Hall Hown] [(i & p & Hp & Hfin) Hstuck].
  assert (Hblocked : forall j q,
             c_threads c !! j = Some q -> finished q = false ->
             exists l k o, q = Acquire l k /\ c_owner c !! l = Some o).
  { intros j q Hq Hf. specialize (Hstuck j). unfold thread_step in Hstuck.
    rewrite Hq in Hstuck. destruct q as [x|o k|x k|l k|l k]; try discriminate.
    destruct (c_owner c !! l) as [o|] eqn:Ho; [|discriminate].
    exists l, k, o. split; [reflexivity|exact Ho]. }
  assert (HL : omap awaited (c_threads c) <> []).
  { destruct (Hblocked i p Hp Hfin) as (l & k & o & -> & _). intros HL.
    assert (Hin : l ∈ omap awaited (c_threads c)).
    { apply list_elem_of_omap. exists (Acquire l k).
      split; [eapply list_elem_of_lookup_2, Hp|reflexivity]. }
    rewrite HL in Hin. apply not_elem_of_nil in Hin. contradiction. }
  destruct (list_max_exists _ HL) as (m & Hm & Hmax).
  apply list_elem_of_omap in Hm as (q & Hq & Haw).
  destruct q as [x|o k|x k|l k|l k]; try discriminate. injection Haw as ->.
  apply list_elem_of_lookup_1 in Hq as [j Hj].
  destruct (Hblocked j _ Hj eq_refl) as (l & k' & o & Heq & Ho).
  injection Heq as <- _.
  apply Hown in Ho as (hs & Hst & Hin).
  destruct (Forall2_lookup_r _ _ _ o hs Hall Hst) as (q & Hq & Hd & _).
  assert (Hf : finished q = false).
  { destruct q; try reflexivity. simpl in Hd. subst hs.
    apply not_elem_of_nil in Hin. contradiction. }
  destruct (Hblocked o q Hq Hf) as (l' & k'' & o' & -> & _).
  simpl in Hd. destruct Hd as [Hlt _].
  pose proof (proj1 (Forall_forall _ _) Hlt m Hin) as Hml. simpl in Hml.
  assert (Hl' : l' ∈ omap awaited (c_threads c)).
  { apply list_elem_of_omap. exists (Acquire l' k'').
    split; [eapply list_elem_of_lookup_2, Hq|reflexivity]. }
  specialize (Hmax l' Hl'). lia.
Qed.

(** Threads that keep the lock order never deadlock. *)
Lemma ordered_locks_never_deadlock {R : Type} (w : W) (ps : list (Prog R))
    (c : Conf W R) :
  Forall (fun p => disciplined [] p []) ps ->
  rtc (step E) (start w ps) c ->
  ~ deadlocked E c.
Proof.
  intros Hps Hrun.
  assert (Hinv : exists st, lock_inv c st).
  { pose proof (lock_inv_start w ps Hps) as H0.
    revert H0. generalize (replicate (length ps) (@nil Z)).
    induction Hrun as [c|c c1 c2 Hs _ IH]; intros st Hinv.
    - exists st. exact Hinv.
    - destruct (lock_inv_step c c1 st Hinv Hs) as [st1 Hinv1]. apply (IH st1 Hinv1). }
  destruct Hinv as [st Hinv]. apply (lock_inv_progress c st Hinv).
Qed.

(** X17.  Any number of threads, each in a call of [query], [synchronize],
    [elapsedTime], [streamWait] or [addMarker] on any events: when every
    call of [elapsedTime] has its start event at an address not above the
    one of its stop event, no interleaving, on any engine, reaches a
    state in which a call has not returned and no thread can move. *)
Theorem ordered_calls_never_deadlock (w : W) (calls : list Call) (c : Conf W unit) :
  Forall ordered_call calls ->
  rtc (step E) (start w (call_prog <$> calls)) c ->
  ~ deadlocked E c.
Proof.
  intros Hord. apply ordered_locks_never_deadlock.
  apply Forall_fmap. eapply Forall_impl; [exact Hord|].
  intros call Ho. apply disciplined_call, Ho.
Qed.

End lock_order.

(** ** Events from creation on *)

Section created.
Context `{HipConstants} {W : Type} (E : Engine W).

(** A successful creation put the new object at the address the
    allocation gave, which is not null. *)
Lemma create_succeeds (heap : gmap Z Event) (old flags newp : Z) :
  (ihipEventCreateWithFlags heap (Some old) flags newp).1.1 = hipSuccess ->
  newp <> nullptr /\
  (ihipEventCreateWithFlags heap (Some old) flags newp).1.2 =
    <[newp := Event_new flags]> heap.
Proof.
  unfold ihipEventCreateWithFlags. cbv zeta.
  destruct (negb _); [|discriminate].
  destruct (Z.eqb_spec newp 0) as [Hn|Hn]; [discriminate|].
  intros _. split; [exact Hn|reflexivity].
Qed.

(** X12.  An event that [ihipEventCreateWithFlags] has just created, on any
    engine in any state: [ihipEventQuery] and [synchronize] return
    [hipSuccess] without a call to the engine; [elapsedTime] of the event
    with itself, and with any other event as start or as stop, returns
    [hipErrorInvalidHandle], leaves [ms] as it was and calls the engine
    not once. *)
Theorem created_event_is_unrecorded (heap : gmap Z Event) (old flags newp : Z)
    (w : W) (b : Z) (other : Event) (ms : Q) :
  (ihipEventCreateWithFlags heap (Some old) flags newp).1.1 = hipSuccess ->
  b <> newp ->
  let heap' := (ihipEventCreateWithFlags heap (Some old) flags newp).1.2 in
  exists e,
    heap' !! newp = Some e
    /\ ihipEventQuery heap' newp = Some (Event_query newp e)
    /\ exec E (Event_query newp e) w = (hipSuccess, w, [Locked newp; Unlocked newp])
    /\ exec E (Event_synchronize newp e) w =
         (hipSuccess, w, [Locked newp; Unlocked newp])
    /\ exec E (Event_elapsedTime newp e newp e ms) w =
         (hipErrorInvalidHandle, ms, w, [Locked newp; Unlocked newp])
    /\ exec E (Event_elapsedTime newp e b other ms) w =
         (hipErrorInvalidHandle, ms, w,
          [Locked newp; Locked b; Unlocked b; Unlocked newp])
    /\ exec E (Event_elapsedTime b other newp e ms) w =
         (hipErrorInvalidHandle, ms, w,
          [Locked b; Locked newp; Unlocked newp; Unlocked b]).
Proof.
  intros Hok Hb heap'.
  destruct (create_succeeds heap old flags newp Hok) as [Hn Hheap].
  assert (Hnew : heap' !! newp = Some (Event_new flags)).
  { unfold heap'. rewrite Hheap. apply lookup_insert_eq. }
  exists (Event_new flags). split; [exact Hnew|]. split.
  - unfold ihipEventQuery. rewrite (proj2 (Z.eqb_neq _ _) Hn), Hnew. reflexivity.
  - split; [reflexivity|]. split; [reflexivity|]. split; [|split].
    + unfold Event_elapsedTime. rewrite Z.eqb_refl. reflexivity.
    + unfold Event_elapsedTime. rewrite (proj2 (Z.eqb_neq newp b) (not_eq_sym Hb)).
      reflexivity.
    + unfold Event_elapsedTime. rewrite (proj2 (Z.eqb_neq b newp) Hb).
      simpl event_. rewrite orb_true_r. reflexivity.
Qed.

(** X13.  [ihipEventQuery]: a null event is [hipErrorInvalidHandle], with
    no monitor taken and no call to the engine; for an event object of the
    heap the answer is [hipSuccess] or [hipErrorNotReady], never an error
    of another kind, and no call waits for the device. *)
Theorem ihipEventQuery_outcomes (heap : gmap Z Event) (event : Z) (e : Event) (w : W) :
  ihipEventQuery heap nullptr = Some (Ret hipErrorInvalidHandle)
  /\ (event <> nullptr -> heap !! event = Some e ->
      exists p,
        ihipEventQuery heap event = Some p
        /\ (result (exec E p w) = hipSuccess \/ result (exec E p w) = hipErrorNotReady)
        /\ Forall (fun s => waits s = false) (trace (exec E p w))).
Proof.
  split; [reflexivity|]. intros Hn He.
  exists (Event_query event e). split.
  - unfold ihipEventQuery. rewrite (proj2 (Z.eqb_neq _ _) Hn), He. reflexivity.
  - apply (all_paths_exec E (Event_query event e)
             (fun r t => (r = hipSuccess \/ r = hipErrorNotReady)
                         /\ Forall (fun s => waits s = false) t)).
    unfold Event_query, ScopedLock, Event_ready.
    split_paths;
      (split; [first [left; reflexivity | right; reflexivity]|repeat constructor]).
Qed.

(** X14.  [streamWait] when the event is bound to another queue, the nudge
    succeeds and the allocation of the marker gives a null pointer: it
    returns [hipErrorOutOfMemory] and neither enqueues nor releases
    anything. *)
Theorem streamWait_out_of_memory (this : Z) (self : Event) (hostQueue flags' : Z)
    (w : W) :
  event_ self <> nullptr ->
  observe E (CommandQueue (event_ self)) w <> hostQueue ->
  let n := perform E (NotifyCmdQueue (event_ self)) w in
  n.1 = true ->
  let m := perform E (NewMarker hostQueue kMarkerDisableFlush [event_ self]) n.2 in
  m.1 = nullptr ->
  exec E (Event_streamWait this self hostQueue flags') w =
    (hipErrorOutOfMemory, m.2,
     [Locked this; Did (NotifyCmdQueue (event_ self));
      Did (NewMarker hostQueue kMarkerDisableFlush [event_ self]); Unlocked this]).
Proof.
  intros Hh Hq n Hn m Hm. unfold Event_streamWait.
  rewrite (proj2 (Z.eqb_neq _ _) Hh). simpl.
  rewrite (proj2 (Z.eqb_neq _ _) Hq). simpl.
  subst m n.
  destruct (perform E (NotifyCmdQueue (event_ self)) w) as [ok w1]. simpl in *.
  subst ok. simpl.
  destruct (perform E (NewMarker hostQueue kMarkerDisableFlush [event_ self]) w1)
    as [c w2]. simpl in *.
  subst c. reflexivity.
Qed.

End created.

Section create_more.
Context `{HipConstants}.


End create_more.

(** ** The theorems on the reference engine *)

#[local] Existing Instance hip_constants.

(** The reference engine keeps the contract of [awaitCompletion]. *)
Lemma RefEngine_await_contract : await_contract RefEngine.
Proof.
  split.
  - intros h w. simpl. unfold rw_complete.
    destruct (rc_status (rw_command w h) =? 0) eqn:Hs.
    + apply Z.eqb_eq in Hs. exact Hs.
    + unfold rw_command. simpl. rewrite lookup_insert_eq. reflexivity.
  - intros h w Hs. simpl in *. unfold rw_complete.
    rewrite Hs. reflexivity.
Qed.

(** Two events whose handles the concrete state holds complete pass the
    checks without a nudge. *)
Lemma demo_validated (self stop : Event) :
  event_ self <> nullptr -> event_ stop <> nullptr ->
  timingDisabled self = false -> timingDisabled stop = false ->
  exec RefEngine (Event_ready self) demo_world = (true, demo_world, []) ->
  exec RefEngine (Event_ready stop) demo_world = (true, demo_world, []) ->
  validated RefEngine self stop demo_world demo_world [].
Proof.
  intros Ha Hb Hta Htb Hr1 Hr2. repeat split; try assumption.
  exists demo_world, [], []. repeat split; assumption.
Defined.

(** Commands 1 and 2 ended at 20 and 50: 30 ticks.  The [float] nearest to
    0.00003 is 16492674 / 2^39. *)
Lemma elapsedTime_recorded_distinct_handles_witness :
  exec RefEngine (Event_elapsedTime 1000 (ev 0 1 true) 2000 (ev 0 2 true) 0) demo_world =
    (hipSuccess, 16492674 # 549755813888, demo_world,
     [Locked 1000; Locked 2000; Unlocked 2000; Unlocked 1000])
  /\ (Qabs ((16492674 # 549755813888) - (30 # 1000000))
       <= Qabs (30 # 1000000) * (1 # 8000000))%Q.
Proof.
  assert (Hv : validated RefEngine (ev 0 1 true) (ev 0 2 true) demo_world demo_world []).
  { apply demo_validated; [simpl; lia | simpl; lia | reflexivity ..]. }
  destruct (elapsedTime_recorded_distinct_handles RefEngine
              1000 2000 (ev 0 1 true) (ev 0 2 true) 0 demo_world demo_world []
              ltac:(lia) Hv ltac:(simpl; lia) eq_refl eq_refl) as (Hx & _ & Hnear & _).
  split; [exact Hx|exact Hnear].
Defined.

(** Both events on command 1, which ended at 20; the marker is command 4 on
    queue 100 and ends at 61: 41 ticks.  The [float] nearest to 0.000041 is
    11269994 / 2^38. *)
Lemma elapsedTime_same_handle_recorded_witness :
  result (exec RefEngine
            (Event_elapsedTime 1000 (ev 0 1 true) 2000 (ev 0 1 false) 0) demo_world) =
    (hipSuccess, 11269994 # 274877906944)
  /\ trace (exec RefEngine
              (Event_elapsedTime 1000 (ev 0 1 true) 2000 (ev 0 1 false) 0) demo_world) =
       [Locked 1000; Locked 2000; Did (NewMarker 100 true []); Did (Enqueue 4);
        Did (CommandAwaitCompletion 4); Did (ReleaseCommand 4);
        Unlocked 2000; Unlocked 1000].
Proof.
  assert (Hv : validated RefEngine (ev 0 1 true) (ev 0 1 false) demo_world demo_world []).
  { apply demo_validated; [simpl; lia | simpl; lia | reflexivity ..]. }
  destruct (elapsedTime_same_handle_recorded RefEngine
              1000 2000 (ev 0 1 true) (ev 0 1 false) 0 demo_world demo_world []
              ltac:(lia) Hv eq_refl eq_refl) as [Hx _].
  rewrite Hx. split; reflexivity.
Defined.

(** Both events on command 1, which ran from 10 to 20: 10 ticks.  The
    [float] nearest to 0.00001 is 10995116 / 2^40. *)
Lemma elapsedTime_same_handle_unrecorded_witness :
  exec RefEngine (Event_elapsedTime 1000 (ev 0 1 false) 2000 (ev 0 1 false) 0) demo_world =
    (hipSuccess, 10995116 # 1099511627776, demo_world,
     [Locked 1000; Locked 2000; Unlocked 2000; Unlocked 1000]).
Proof.
  assert (Hv : validated RefEngine (ev 0 1 false) (ev 0 1 false) demo_world demo_world []).
  { apply demo_validated; [simpl; lia | simpl; lia | reflexivity ..]. }
  exact (proj1 (elapsedTime_same_handle_unrecorded RefEngine
                  1000 2000 (ev 0 1 false) (ev 0 1 false) 0 demo_world demo_world []
                  ltac:(lia) Hv eq_refl eq_refl eq_refl)).
Defined.

(** A start event with [hipEventDisableTiming] and a pending stop event;
    then a complete start event and the pending stop event. *)
Lemma elapsedTime_validation_witness :
  exec RefEngine (Event_elapsedTime 1000 (ev 0x2 1 true) 2000 (ev 0 3 true) 7) demo_world =
    (hipErrorInvalidHandle, 7%Q, demo_world,
     [Locked 1000; Locked 2000; Unlocked 2000; Unlocked 1000])
  /\ result (exec RefEngine
               (Event_elapsedTime 1000 (ev 0 1 true) 2000 (ev 0 3 true) 7) demo_world) =
       (hipErrorNotReady, 7%Q).
Proof.
  split.
  - apply (proj1 (elapsedTime_validation RefEngine
                    1000 2000 (ev 0x2 1 true) (ev 0 3 true) 7 demo_world ltac:(lia))).
    right. right. left. reflexivity.
  - apply (proj2 (elapsedTime_validation RefEngine
                    1000 2000 (ev 0 1 true) (ev 0 3 true) 7 demo_world ltac:(lia))
             ltac:(simpl; lia) ltac:(simpl; lia) eq_refl eq_refl
             true false demo_world demo_world [] [Did (NotifyCmdQueue 3)]);
      reflexivity.
Defined.

(** A fresh event, an event on the pending command 3, an event on the
    complete command 1. *)
Lemma elapsedTime_self_witness :
  exec RefEngine (Event_elapsedTime 1000 (Event_new 0) 1000 (Event_new 0) 7) demo_world =
    (hipErrorInvalidHandle, 7%Q, demo_world, [Locked 1000; Unlocked 1000])
  /\ exec RefEngine (Event_elapsedTime 1000 (ev 0 3 true) 1000 (ev 0 3 true) 7) demo_world =
       (hipErrorNotReady, 7%Q, demo_world,
        [Locked 1000; Did (NotifyCmdQueue 3); Unlocked 1000])
  /\ exec RefEngine (Event_elapsedTime 1000 (ev 0 1 true) 1000 (ev 0 1 true) 7) demo_world =
       (hipSuccess, 0%Q, demo_world, [Locked 1000; Unlocked 1000]).
Proof.
  split; [|split].
  - apply (proj1 (elapsedTime_self RefEngine 1000 (Event_new 0) 7 demo_world)).
    left. reflexivity.
  - apply (proj2 (elapsedTime_self RefEngine 1000 (ev 0 3 true) 7 demo_world)
             ltac:(simpl; lia) eq_refl false demo_world [Did (NotifyCmdQueue 3)]).
    reflexivity.
  - apply (proj2 (elapsedTime_self RefEngine 1000 (ev 0 1 true) 7 demo_world)
             ltac:(simpl; lia) eq_refl true demo_world []).
    reflexivity.
Defined.

(** [hipEventReleaseToDevice | hipEventBlockingSync] is accepted; both
    release flags, and the unrecognised bit 0x4, are refused. *)
Lemma create_validates_flags_witness :
  ihipEventCreateWithFlags ∅ (Some 0) 0x40000001 77 =
    (hipSuccess, <[77 := Event_new 0x40000001]> ∅, Some 77)
  /\ (ihipEventCreateWithFlags ∅ (Some 0) 0xC0000000 77).1.1 = hipErrorInvalidValue
  /\ (ihipEventCreateWithFlags ∅ (Some 0) 0x4 77).1.1 = hipErrorInvalidValue.
Proof.
  destruct (create_validates_flags ∅ 0 0x40000001 77 ltac:(lia)) as (_ & Hiff & Hok).
  destruct (create_validates_flags ∅ 0 0xC0000000 77 ltac:(lia)) as (_ & Hboth & _).
  destruct (create_validates_flags ∅ 0 0x4 77 ltac:(lia)) as (_ & Hbit & _).
  split; [|split].
  - apply Hok; [|lia].
    intros Hbad. apply Hiff in Hbad. vm_compute in Hbad. discriminate.
  - apply Hboth. right. split; reflexivity.
  - apply Hbit. left. exists 2. repeat split; [lia | reflexivity ..].
Defined.

(** A fresh event; and an event on the pending command 3, on which the
    first [synchronize] moves the device clock from 60 to 62 and leaves the
    command complete, and the second calls [awaitCompletion] again. *)
Lemma query_synchronize_witness :
  exec RefEngine (Event_query 1000 (Event_new 0)) demo_world =
    (hipSuccess, demo_world, [Locked 1000; Unlocked 1000])
  /\ exec RefEngine (Event_synchronize 1000 (Event_new 0)) demo_world =
       (hipSuccess, demo_world, [Locked 1000; Unlocked 1000])
  /\ (let once := exec RefEngine (Event_synchronize 1000 (ev 0 3 true)) demo_world in
      rw_clock (final once) = 62 /\
      observe RefEngine (Status 3) (final once) = CL_COMPLETE /\
      exec RefEngine (Event_synchronize 1000 (ev 0 3 true)) (final once) =
        (hipSuccess, final once,
         [Locked 1000; Did (AwaitCompletion 3); Unlocked 1000])).
Proof.
  destruct (query_synchronize RefEngine 1000 (Event_new 0) demo_world)
    as (Hnull & _ & _ & _).
  destruct (query_synchronize RefEngine 1000 (ev 0 3 true) demo_world)
    as (_ & _ & _ & Hagain).
  destruct (Hnull eq_refl) as [Hq Hs].
  destruct (Hagain ltac:(simpl; lia) (proj1 RefEngine_await_contract))
    as (_ & Hdone & Htwice).
  split; [exact Hq|]. split; [exact Hs|].
  split; [reflexivity|]. split; [exact Hdone|exact Htwice].
Defined.

(** Against C6 as stated: [synchronize] and [query] of the event at 1000,
    bound to the pending command 3, on two threads.  Once [synchronize]
    holds the monitor, [query] has not begun and cannot move; the step that
    [synchronize] takes is its wait for the device, which moves the device
    clock from 60 to 62; and after it [query] still cannot move. *)
Lemma query_blocked_by_synchronize :
  exists c c' : Conf RWorld hipError_t,
    rtc (step RefEngine)
      (start demo_world [Event_synchronize 1000 (ev 0 3 true);
                         Event_query 1000 (ev 0 3 true)]) c
    /\ c_threads c !! 1%nat = Some (Event_query 1000 (ev 0 3 true))
    /\ thread_step RefEngine 1 c = None
    /\ c_threads c !! 0%nat =
         Some (Perform (AwaitCompletion 3) (fun _ => Release 1000 (Ret hipSuccess)))
    /\ thread_step RefEngine 0 c = Some c'
    /\ rw_clock (c_world c) = 60 /\ rw_clock (c_world c') = 62
    /\ c_threads c' !! 1%nat = Some (Event_query 1000 (ev 0 3 true))
    /\ thread_step RefEngine 1 c' = None.
Proof.
  exists {| c_world := demo_world; c_owner := <[1000 := 0%nat]> ∅;
            c_threads := [Perform (AwaitCompletion 3)
                            (fun _ => Release 1000 (Ret hipSuccess));
                          Event_query 1000 (ev 0 3 true)] |},
         {| c_world := rw_complete 3 demo_world; c_owner := <[1000 := 0%nat]> ∅;
            c_threads := [Release 1000 (Ret hipSuccess);
                          Event_query 1000 (ev 0 3 true)] |}.
  split; [apply rtc_once; exists 0%nat; reflexivity|].
  repeat split; reflexivity.
Qed.

(** An event on command 2 of queue 100: waited for on queue 100, on queue
    200 when the nudge fails, and on queue 200 when it succeeds. *)
Lemma streamWait_cases_witness :
  exec RefEngine (Event_streamWait 1000 (ev 0 2 true) 100 0) demo_world =
    (hipSuccess, demo_world, [])
  /\ exec RefEngine (Event_streamWait 1000 (ev 0 2 true) 200 0) stuck_world =
       (hipErrorLaunchOutOfResources, stuck_world,
        [Locked 1000; Did (NotifyCmdQueue 2); Unlocked 1000])
  /\ result (exec RefEngine (Event_streamWait 1000 (ev 0 2 true) 200 0) demo_world) =
       hipSuccess
  /\ trace (exec RefEngine (Event_streamWait 1000 (ev 0 2 true) 200 0) demo_world) =
       [Locked 1000; Did (NotifyCmdQueue 2); Did (NewMarker 200 true [2]);
        Did (Enqueue 4); Did (ReleaseCommand 4); Unlocked 1000].
Proof.
  destruct (streamWait_cases RefEngine 1000 (ev 0 2 true) 100 0 demo_world)
    as (Hsame & _ & _).
  destruct (streamWait_cases RefEngine 1000 (ev 0 2 true) 200 0 stuck_world)
    as (_ & Hstuck & _).
  destruct (streamWait_cases RefEngine 1000 (ev 0 2 true) 200 0 demo_world)
    as (_ & Hother & _).
  split; [|split].
  - apply Hsame. right. reflexivity.
  - apply (proj1 (Hstuck ltac:(simpl; lia) ltac:(vm_compute; congruence))).
    reflexivity.
  - rewrite (proj2 (Hother ltac:(simpl; lia) ltac:(vm_compute; congruence)) eq_refl
               ltac:(vm_compute; congruence)).
    split; reflexivity.
Defined.

(** Against C7 as stated: [synchronize] of the event at 1000, bound to the
    pending command 3 of queue 200, on one thread and [streamWait] of the
    same event for queue 100 on another.  After [synchronize] has taken
    the monitor and [streamWait] has passed its first test, [streamWait]
    has not returned and cannot move; the step that [synchronize] takes is
    its wait for the device, which moves the device clock from 60 to 62;
    and after it [streamWait] still cannot move. *)
Lemma streamWait_blocked_by_synchronize :
  exists c c' : Conf RWorld hipError_t,
    rtc (step RefEngine)
      (start demo_world [Event_synchronize 1000 (ev 0 3 true);
                         Event_streamWait 1000 (ev 0 3 true) 100 0]) c
    /\ (exists p, c_threads c !! 1%nat = Some p /\ finished p = false)
    /\ thread_step RefEngine 1 c = None
    /\ c_threads c !! 0%nat =
         Some (Perform (AwaitCompletion 3) (fun _ => Release 1000 (Ret hipSuccess)))
    /\ thread_step RefEngine 0 c = Some c'
    /\ rw_clock (c_world c) = 60 /\ rw_clock (c_world c') = 62
    /\ (exists p, c_threads c' !! 1%nat = Some p /\ finished p = false)
    /\ thread_step RefEngine 1 c' = None.
Proof.
  destruct (run_schedule RefEngine [0%nat; 1%nat]
              (start demo_world [Event_synchronize 1000 (ev 0 3 true);
                                 Event_streamWait 1000 (ev 0 3 true) 100 0]))
    as [c|] eqn:Hrun; [|vm_compute in Hrun; discriminate].
  pose proof (run_schedule_rtc RefEngine _ _ _ Hrun) as Hrtc.
  simpl in Hrun. injection Hrun as <-.
  eexists _, _. split; [exact Hrtc|].
  split; [eexists; split; reflexivity|].
  split; [reflexivity|]. split; [reflexivity|]. split; [reflexivity|].
  split; [reflexivity|]. split; [reflexivity|].
  split; [eexists; split; reflexivity|reflexivity].
Qed.

(** C8.  The event at 1000 holds the handle of command 2, a user-visible
    command that is the last one of the timing-enabled queue 100, with two
    references to it.  Recording the event again on queue 100 keeps the
    event as it is, and the only engine call is the retaining look-up: the
    command ends with three references, and no call gives the third one
    back. *)
Theorem addMarker_rerecord_retains_reference :
  let e := ev 0 2 true in
  let r := exec RefEngine (Event_addMarker 1000 e 100 nullptr true) demo_world in
  result r = e
  /\ trace r = [Locked 1000; Did (GetLastQueuedCommand 100 true); Unlocked 1000]
  /\ refcount demo_world 2 = 2
  /\ refcount (final r) 2 = 3.
Proof.
  cbv zeta.
  rewrite (addMarker_same_command_looked_up RefEngine 1000 (ev 0 2 true) 100 true
             demo_world eq_refl ltac:(vm_compute; congruence)
             ltac:(vm_compute; congruence) eq_refl).
  repeat split; reflexivity.
Qed.

(** Events recorded on commands 1 and 2: 30 ticks one way, -30 the other,
    as [float]s. *)
Lemma elapsedTime_concurrent_sign_inverted_witness :
  exists c,
    rtc (step RefEngine)
      (start demo_world
         [Event_elapsedTime 1000 (ev 0 1 true) 2000 (ev 0 2 true) 0;
          Event_elapsedTime 2000 (ev 0 2 true) 1000 (ev 0 1 true) 0]) c
    /\ c_threads c =
         [Ret (hipSuccess, 16492674 # 549755813888);
          Ret (hipSuccess, (- (16492674 # 549755813888))%Q)].
Proof.
  exact (proj1 (elapsedTime_concurrent_sign_inverted (H := hip_constants)
                  RefEngine demo_world 1000 2000 (ev 0 1 true) (ev 0 2 true) 0 0
                  ltac:(lia) ltac:(simpl; lia) ltac:(simpl; lia) eq_refl eq_refl
                  ltac:(vm_compute; reflexivity) ltac:(vm_compute; reflexivity)
                  ltac:(simpl; lia) eq_refl eq_refl
                  ltac:(vm_compute; split; reflexivity))).
Defined.

(** Against C10 as stated: two events recorded one after the other behind
    the user-visible command 2, so that both hold its handle; both complete.
    Both calls return [hipSuccess]; each measures from the shared handle to
    a marker of its own, 11 ticks for one and 13 for the other, which are
    the [float]s 12094628 / 2^40 and 14293651 / 2^40. *)
Lemma elapsedTime_concurrent_not_sign_inverted :
  exists c,
    rtc (step RefEngine)
      (start demo_world
         [Event_elapsedTime 1000 (ev 0 2 true) 2000 (ev 0 2 true) 0;
          Event_elapsedTime 2000 (ev 0 2 true) 1000 (ev 0 2 true) 0]) c
    /\ c_threads c = [Ret (hipSuccess, 12094628 # 1099511627776);
                      Ret (hipSuccess, 14293651 # 1099511627776)]
    /\ ~ (14293651 # 1099511627776 == - (12094628 # 1099511627776))%Q.
Proof.
  destruct (run_schedule RefEngine (in_turn 16)
              (start demo_world
                 [Event_elapsedTime 1000 (ev 0 2 true) 2000 (ev 0 2 true) 0;
                  Event_elapsedTime 2000 (ev 0 2 true) 1000 (ev 0 2 true) 0]))
    as [c|] eqn:Hrun; [|vm_compute in Hrun; discriminate].
  exists c. split; [|split].
  - apply (run_schedule_rtc RefEngine (in_turn 16)), Hrun.
  - vm_compute in Hrun. injection Hrun as <-. reflexivity.
  - unfold Qeq. simpl. lia.
Qed.

(** The same with a start event bound to command 1 without an explicit
    record and a stop event recorded on command 2: one call measures 40
    ticks, the other -10, as [float]s. *)
Lemma elapsedTime_unrecorded_not_sign_inverted :
  exists c,
    rtc (step RefEngine)
      (start demo_world
         [Event_elapsedTime 1000 (ev 0 1 false) 2000 (ev 0 2 true) 0;
          Event_elapsedTime 2000 (ev 0 2 true) 1000 (ev 0 1 false) 0]) c
    /\ c_threads c = [Ret (hipSuccess, 10995116 # 274877906944);
                      Ret (hipSuccess, -10995116 # 1099511627776)]
    /\ ~ (-10995116 # 1099511627776 == - (10995116 # 274877906944))%Q.
Proof.
  exists {| c_world := demo_world; c_owner := ∅;
            c_threads := [Ret (hipSuccess, 10995116 # 274877906944);
                          Ret (hipSuccess, -10995116 # 1099511627776)] |}.
  split; [|split].
  - apply (run_schedule_rtc RefEngine (in_turn 10)). vm_compute. reflexivity.
  - reflexivity.
  - unfold Qeq. simpl. lia.
Qed.

(** ** The further theorems on the reference engine *)

(** The start event on command 1 without a record, the stop event recorded
    on command 2: command 1 started at 10, command 2 ended at 50, 40 ticks.
    The [float] nearest to 0.00004 is 10995116 / 2^38. *)
Lemma elapsedTime_distinct_handles_unrecorded_witness :
  exec RefEngine (Event_elapsedTime 1000 (ev 0 1 false) 2000 (ev 0 2 true) 0) demo_world =
    (hipSuccess, 10995116 # 274877906944, demo_world,
     [Locked 1000; Locked 2000; Unlocked 2000; Unlocked 1000]).
Proof.
  assert (Hv : validated RefEngine (ev 0 1 false) (ev 0 2 true) demo_world demo_world []).
  { apply demo_validated; [simpl; lia | simpl; lia | reflexivity ..]. }
  exact (proj1 (elapsedTime_distinct_handles_unrecorded RefEngine
                  1000 2000 (ev 0 1 false) (ev 0 2 true) 0 demo_world demo_world []
                  ltac:(lia) Hv ltac:(simpl; lia) eq_refl)).
Defined.

(** Two recorded events on the commands 1 and 2. *)
Lemma elapsedTime_waits_only_for_marker_witness :
  Forall (fun s => waits s = false /\ is_new_marker s = false)
    (trace (exec RefEngine
              (Event_elapsedTime 1000 (ev 0 1 true) 2000 (ev 0 2 true) 0) demo_world)).
Proof.
  apply (elapsedTime_waits_only_for_marker RefEngine
           1000 2000 (ev 0 1 true) (ev 0 2 true) 0 demo_world).
  right. left. simpl. lia.
Defined.

(** An event on the complete command 1 and one on the pending command 3. *)
Lemma query_bound_witness :
  exec RefEngine (Event_query 1000 (ev 0 1 true)) demo_world =
    (hipSuccess, demo_world, [Locked 1000; Unlocked 1000])
  /\ exec RefEngine (Event_query 1000 (ev 0 3 true)) demo_world =
       (hipErrorNotReady, demo_world,
        [Locked 1000; Did (NotifyCmdQueue 3); Unlocked 1000]).
Proof.
  split.
  - apply (proj1 (query_bound RefEngine 1000 (ev 0 1 true) demo_world
                    ltac:(simpl; lia))).
    reflexivity.
  - rewrite (proj2 (query_bound (H := hip_constants) RefEngine 1000 (ev 0 3 true)
                      demo_world ltac:(simpl; lia))
               ltac:(vm_compute; congruence)).
    reflexivity.
Defined.

(** An event on the pending command 3. *)
Lemma synchronize_then_query_witness :
  let once := exec RefEngine (Event_synchronize 1000 (ev 0 3 true)) demo_world in
  result once = hipSuccess
  /\ exec RefEngine (Event_query 1000 (ev 0 3 true)) (final once) =
       (hipSuccess, final once, [Locked 1000; Unlocked 1000])
  /\ exec RefEngine (Event_elapsedTime 1000 (ev 0 3 true) 1000 (ev 0 3 true) 7)
       (final once) =
       (hipSuccess, 0%Q, final once, [Locked 1000; Unlocked 1000]).
Proof.
  destruct (synchronize_then_query RefEngine 1000 (ev 0 3 true) 7 demo_world
              ltac:(simpl; lia) (proj1 RefEngine_await_contract))
    as (Hr & _ & Hq & He).
  split; [exact Hr|]. split; [exact Hq|]. apply He. reflexivity.
Defined.

(** An event on command 1 recorded again on queue 100, whose last command
    is the user-visible command 2: the event moves to command 2, which
    gains the reference of the look-up, and command 1 loses one. *)
Lemma addMarker_rebinds_witness :
  let r := exec RefEngine (Event_addMarker 1000 (ev 0 1 false) 100 nullptr true)
             demo_world in
  result r = ev 0 2 true
  /\ trace r = [Locked 1000; Did (GetLastQueuedCommand 100 true);
               Did (ReleaseEvent 1); Unlocked 1000]
  /\ refcount (final r) 1 = 1
  /\ refcount (final r) 2 = 3.
Proof.
  cbv zeta.
  rewrite (addMarker_rebinds (H := hip_constants) RefEngine
             1000 (ev 0 1 false) 100 nullptr true demo_world
             ltac:(vm_compute; congruence)).
  repeat split; reflexivity.
Defined.


(** The event created at 77 against the event at 1000 on command 1. *)
Lemma created_event_is_unrecorded_witness :
  exists e,
    (ihipEventCreateWithFlags ∅ (Some 0) 0 77).1.2 !! 77 = Some e
    /\ exec RefEngine (Event_query 77 e) demo_world =
         (hipSuccess, demo_world, [Locked 77; Unlocked 77])
    /\ exec RefEngine (Event_elapsedTime 77 e 1000 (ev 0 1 true) 7) demo_world =
         (hipErrorInvalidHandle, 7%Q, demo_world,
          [Locked 77; Locked 1000; Unlocked 1000; Unlocked 77]).
Proof.
  destruct (created_event_is_unrecorded (H := hip_constants) RefEngine
              ∅ 0 0 77 demo_world 1000 (ev 0 1 true) 7 eq_refl ltac:(lia))
    as (e & He & _ & Hq & _ & _ & Hab & _).
  exists e. split; [exact He|]. split; [exact Hq|exact Hab].
Defined.

(** An event on command 2 of queue 100 waited for on queue 200, in the state
    whose next allocation gives a null pointer. *)
Lemma streamWait_out_of_memory_witness :
  result (exec RefEngine (Event_streamWait 1000 (ev 0 2 true) 200 0) oom_world) =
    hipErrorOutOfMemory
  /\ trace (exec RefEngine (Event_streamWait 1000 (ev 0 2 true) 200 0) oom_world) =
       [Locked 1000; Did (NotifyCmdQueue 2); Did (NewMarker 200 true [2]);
        Unlocked 1000].
Proof.
  rewrite (streamWait_out_of_memory (H := hip_constants) RefEngine
             1000 (ev 0 2 true) 200 0 oom_world
             ltac:(simpl; lia) ltac:(vm_compute; congruence) eq_refl eq_refl).
  split; reflexivity.
Defined.

(** [synchronize] and [query] on an event on the pending command 3. *)
Lemma query_waits_behind_synchronize_witness :
  exists c : Conf RWorld hipError_t,
    rtc (step RefEngine)
      (start demo_world [Event_synchronize 1000 (ev 0 3 true);
                         Event_query 1000 (ev 0 3 true)]) c
    /\ c_world c = demo_world
    /\ thread_step RefEngine 1 c = None.
Proof.
  destruct (query_waits_behind_synchronize (H := hip_constants) RefEngine
              demo_world 1000 (ev 0 3 true) ltac:(simpl; lia))
    as (c & Hrun & Hw & _ & Hstuck & _).
  exists c. split; [exact Hrun|]. split; [exact Hw|exact Hstuck].
Defined.

(** The events at 1000 and 2000, named in opposite orders by two threads. *)
Lemma elapsedTime_opposite_order_deadlock_witness :
  exists c,
    rtc (step RefEngine)
      (start demo_world
         [Event_elapsedTime 1000 (ev 0 1 true) 2000 (ev 0 2 true) 0;
          Event_elapsedTime 2000 (ev 0 2 true) 1000 (ev 0 1 true) 0]) c
    /\ deadlocked RefEngine c.
Proof.
  exact (elapsedTime_opposite_order_deadlock (H := hip_constants) RefEngine
           demo_world 1000 2000 (ev 0 1 true) (ev 0 2 true) 0 0 ltac:(lia)).
Defined.

(** Three calls that name the two events in the same order.  The first
    thread takes the monitor at 1000 and the third the monitor at 2000:
    now the first waits for the monitor at 2000 and the second for the one
    at 1000, while the third, which holds what the first waits for, can
    move.  This is not a deadlock. *)
Lemma ordered_calls_never_deadlock_witness :
  exists c : Conf RWorld unit,
    run_schedule RefEngine [0%nat; 2%nat]
      (start demo_world (call_prog <$> demo_calls)) = Some c
    /\ c_owner c !! 1000 = Some 0%nat
    /\ c_owner c !! 2000 = Some 2%nat
    /\ thread_step RefEngine 0 c = None
    /\ thread_step RefEngine 1 c = None
    /\ is_Some (thread_step RefEngine 2 c)
    /\ ~ deadlocked RefEngine c.
Proof.
  assert (He : exists k,
             call_prog (CallElapsedTime 1000 (ev 0 1 true) 2000 (ev 0 2 true) 0) =
               Acquire 1000 (Acquire 2000 k)) by (eexists; reflexivity).
  assert (Hq : exists k, call_prog (CallQuery 2000 (ev 0 2 true)) =
                         Acquire 2000 (Observe (Status 2) k))
    by (eexists; reflexivity).
  destruct He as [k1 He]. destruct Hq as [k2 Hq].
  assert (Hrun : run_schedule RefEngine [0%nat; 2%nat]
                   (start demo_world (call_prog <$> demo_calls)) =
                 Some {| c_world := demo_world;
                         c_owner := <[2000 := 2%nat]> (<[1000 := 0%nat]> ∅);
                         c_threads := [Acquire 2000 k1;
                                       Acquire 1000 (Acquire 2000 k1);
                                       Observe (Status 2) k2] |}).
  { unfold demo_calls. rewrite !fmap_cons, fmap_nil, He, Hq. reflexivity. }
  eexists. split; [exact Hrun|].
  split; [reflexivity|]. split; [reflexivity|]. split; [reflexivity|].
  split; [reflexivity|]. split; [eexists; reflexivity|].
  apply (ordered_calls_never_deadlock (H := hip_constants) RefEngine
           demo_world demo_calls).
  - repeat constructor; simpl; lia.
  - apply (run_schedule_rtc RefEngine _ _ _ Hrun).
Defined.
